(** * Vector-model regularization (SimPEG/regularization/vector.py)

    A shallow embedding of the cross-reference and vector-amplitude
    regularization classes.  Floating-point numbers are idealised as the
    real numbers of the Standard Library; numpy arrays are lists with an
    explicit shape; scipy sparse matrices are a shape together with a
    coefficient function; Python exceptions are the [Raise] results of a small
    error monad. *)

From Stdlib Require Import Reals Lra Lia String List Arith Bool.
Import ListNotations.
Open Scope R_scope.

(** ** Exceptions *)

Inductive exn : Type :=
| ValueError
| TypeError
| IndexError
| AxisError
| UnboundLocalError
| ZeroDivisionError.

Inductive result (A : Type) : Type :=
| Ok (a : A)
| Raise (e : exn).

Arguments Ok {A} a.
Arguments Raise {A} e.

Definition bind {A B : Type} (c : result A) (k : A -> result B) : result B :=
  match c with
  | Ok a => k a
  | Raise e => Raise e
  end.

Notation "x <- c ;; k" := (bind c (fun x => k))
  (at level 61, c at next level, right associativity).

(** ** Finite sums of reals *)

Fixpoint Rsum (n : nat) (f : nat -> R) : R :=
  match n with
  | O => 0
  | S k => Rsum k f + f k
  end.

(** ** numpy arrays of rank one and two *)

Inductive ndarray : Type :=
| A1 (v : list R)
| A2 (c : nat) (rows : list (list R)).

Definition shape (a : ndarray) : list nat :=
  match a with
  | A1 v => [length v]
  | A2 c rows => [length rows; c]
  end.

Definition size (a : ndarray) : nat :=
  match a with
  | A1 v => length v
  | A2 c rows => (length rows * c)%nat
  end.

(** Every row of a rank-two array has the declared number of columns. *)
Definition wf_array (a : ndarray) : Prop :=
  match a with
  | A1 _ => True
  | A2 c rows => Forall (fun r => length r = c) rows
  end.

Fixpoint shape_eqb (s t : list nat) : bool :=
  match s, t with
  | [], [] => true
  | a :: s', b :: t' => (a =? b)%nat && shape_eqb s' t'
  | _, _ => false
  end.

(** [value[:, k]] *)
Definition column (k : nat) (a : ndarray) : result (list R) :=
  match a with
  | A1 _ => Raise IndexError
  | A2 c rows =>
      if (k <? c)%nat then Ok (map (fun r => nth k r 0) rows)
      else Raise IndexError
  end.

(** [np.tile(value, (n, 1))] on a rank-one array. *)
Definition tile_rows (n : nat) (v : list R) : ndarray :=
  A2 (length v) (repeat v n).

(** ** scipy sparse matrices *)

Record spmatrix : Type := SpMatrix {
  nrows : nat;
  ncols : nat;
  coef : nat -> nat -> R
}.

(** [sp.diags(v)] *)
Definition diags (v : list R) : spmatrix :=
  {| nrows := length v;
     ncols := length v;
     coef := fun i j => if (i =? j)%nat then nth i v 0 else 0 |}.

(** [sp.csr_matrix((r, c))] : the empty (all-zero) matrix. *)
Definition csr_zero (r c : nat) : spmatrix :=
  {| nrows := r; ncols := c; coef := fun _ _ => 0 |}.

(** Unary minus. *)
Definition neg (A : spmatrix) : spmatrix :=
  {| nrows := nrows A; ncols := ncols A; coef := fun i j => - coef A i j |}.

(** [A.T] *)
Definition transpose (A : spmatrix) : spmatrix :=
  {| nrows := ncols A; ncols := nrows A; coef := fun i j => coef A j i |}.

Definition hcat (A B : spmatrix) : spmatrix :=
  {| nrows := nrows A;
     ncols := (ncols A + ncols B)%nat;
     coef := fun i j =>
       if (j <? ncols A)%nat then coef A i j else coef B i (j - ncols A) |}.

Definition vcat (A B : spmatrix) : spmatrix :=
  {| nrows := (nrows A + nrows B)%nat;
     ncols := ncols A;
     coef := fun i j =>
       if (i <? nrows A)%nat then coef A i j else coef B (i - nrows A) j |}.

Fixpoint hstack (A : spmatrix) (rest : list spmatrix) : spmatrix :=
  match rest with
  | [] => A
  | B :: rest' => hstack (hcat A B) rest'
  end.

Fixpoint vstack (A : spmatrix) (rest : list spmatrix) : spmatrix :=
  match rest with
  | [] => A
  | B :: rest' => vstack (vcat A B) rest'
  end.

(** The dimension check of [sp.bmat]: the blocks of a block row share the
    height of its first block, the blocks of a block column share the width
    of the first block row's entry. *)
Definition bmat_row_ok (widths : list nat) (row : list spmatrix) : bool :=
  match row with
  | [] => false
  | A :: _ =>
      forallb (fun B => (nrows B =? nrows A)%nat) row
      && shape_eqb (map ncols row) widths
  end.

Definition bmat (blocks : list (list spmatrix)) : result spmatrix :=
  match blocks with
  | (A :: r0) :: rest =>
      if forallb (bmat_row_ok (map ncols (A :: r0))) blocks then
        Ok (vstack (hstack A r0)
                   (map (fun row => match row with
                                    | B :: r => hstack B r
                                    | [] => csr_zero 0 0
                                    end) rest))
      else Raise ValueError
  | _ => Raise ValueError
  end.

(** Sparse matrix times rank-one array: [A @ v], [A * v]. *)
Definition matvec_raw (A : spmatrix) (v : list R) : list R :=
  map (fun i => Rsum (ncols A) (fun j => coef A i j * nth j v 0))
      (seq 0 (nrows A)).

Definition matvec (A : spmatrix) (v : list R) : result (list R) :=
  if (length v =? ncols A)%nat then Ok (matvec_raw A v) else Raise ValueError.

(** ** The regularization mesh (external collaborator) *)

Inductive orientation : Type := x_dir | y_dir | z_dir.

Record RegularizationMesh : Type := {
  nC : nat;
  dim : nat;
  aveCC2Fx : spmatrix;
  aveCC2Fy : spmatrix;
  aveCC2Fz : spmatrix
}.

(** [getattr(mesh, "aveCC2F{}".format(orientation))] *)
Definition aveCC2F (mesh : RegularizationMesh) (o : orientation) : spmatrix :=
  match o with
  | x_dir => aveCC2Fx mesh
  | y_dir => aveCC2Fy mesh
  | z_dir => aveCC2Fz mesh
  end.

(** A mesh of [n] cells whose averaging operators all map to [f] faces with
    weight one half on the two cells next to each face (cells [i-1] and
    [i]), as on a line of cells. *)
Definition line_average (f n : nat) : spmatrix :=
  {| nrows := f; ncols := n;
     coef := fun i j =>
       if ((j =? i) || (S j =? i))%nat then / 2 else 0 |}.

Definition line_mesh (n d : nat) : RegularizationMesh :=
  {| nC := n; dim := d;
     aveCC2Fx := line_average (S n) n;
     aveCC2Fy := line_average (S n) n;
     aveCC2Fz := line_average (S n) n |}.

(** ** CrossReferenceRegularization.ref_dir (setter) *)

Definition build_X (n : nat) (value : ndarray) : result spmatrix :=
  c0 <- column 0 value ;;
  c1 <- column 1 value ;;
  let R0 := diags c0 in
  let R1 := diags c1 in
  match shape value with
  | [_; 2%nat] => bmat [[R1; neg R0]]
  | [_; 3%nat] =>
      let Z := csr_zero n n in
      c2 <- column 2 value ;;
      let R2 := diags c2 in
      bmat [[Z; R2; neg R1];
            [neg R2; Z; R0];
            [R1; neg R0; Z]]
  | _ => Raise UnboundLocalError
  end.

Definition normalize_ref_dir (mesh : RegularizationMesh) (value : ndarray)
  : result ndarray :=
  if shape_eqb (shape value) [nC mesh; dim mesh] then Ok value
  else if shape_eqb (shape value) [dim mesh] then
    match value with
    | A1 v => Ok (tile_rows (nC mesh) v)
    | A2 _ _ => Raise ValueError
    end
  else Raise ValueError.

(** The attributes of a CrossReferenceRegularization instance that the
    setter touches. *)
Record RefDirState : Type := {
  _ref_dir : option ndarray;
  _X : option spmatrix
}.

Definition set_ref_dir (mesh : RegularizationMesh) (self : RefDirState)
  (value : ndarray) : result RefDirState :=
  value' <- normalize_ref_dir mesh value ;;
  match build_X (nC mesh) value' with
  | Ok X => Ok {| _ref_dir := Some value'; _X := Some X |}
  | Raise e => Raise e
  end.

(** ** The cell-wise cross product, stated on its own *)

(** Component [k] of cell [i] of a model stacked in blocks of length [n]. *)
Definition comp (n : nat) (m : list R) (k i : nat) : R := nth (i + k * n) m 0.

(** Entry [(i, k)] of a rank-two array given by its rows. *)
Definition entry (rows : list (list R)) (i k : nat) : R :=
  nth k (nth i rows []) 0.

(** Out-of-plane component of [(ax, ay, 0) x (bx, by, 0)]. *)
Definition cross2 (ax ay bx by_ : R) : R := ax * by_ - ay * bx.

Definition cross3 (a b : R * R * R) : R * R * R :=
  let '(ax, ay, az) := a in
  let '(bx, by_, bz) := b in
  (ay * bz - az * by_, az * bx - ax * bz, ax * by_ - ay * bx).

Definition cross_field2 (n : nat) (m : list R) (rows : list (list R))
  : list R :=
  map (fun i => cross2 (comp n m 0 i) (comp n m 1 i)
                       (entry rows i 0) (entry rows i 1))
      (seq 0 n).

Definition cross_cell3 (n : nat) (m : list R) (rows : list (list R))
  (i : nat) : R * R * R :=
  cross3 (comp n m 0 i, comp n m 1 i, comp n m 2 i)
         (entry rows i 0, entry rows i 1, entry rows i 2).

Definition cross_field3 (n : nat) (m : list R) (rows : list (list R))
  : list R :=
  map (fun i => fst (fst (cross_cell3 n m rows i))) (seq 0 n)
  ++ map (fun i => snd (fst (cross_cell3 n m rows i))) (seq 0 n)
  ++ map (fun i => snd (cross_cell3 n m rows i)) (seq 0 n).

(** Row [i] of [A] against the window of [m] that starts at [off]. *)
Definition rowdot (A : spmatrix) (i : nat) (m : list R) (off : nat) : R :=
  Rsum (ncols A) (fun j => coef A i j * nth (off + j) m 0).

(** The operators that the two branches of the setter assemble. *)
Definition col_of (rows : list (list R)) (k : nat) : list R :=
  map (fun r => nth k r 0) rows.

Definition X_blocks2 (rows : list (list R)) : list (list spmatrix) :=
  [[diags (col_of rows 1); neg (diags (col_of rows 0))]].

Definition X_blocks3 (n : nat) (rows : list (list R))
  : list (list spmatrix) :=
  let Z := csr_zero n n in
  let R0 := diags (col_of rows 0) in
  let R1 := diags (col_of rows 1) in
  let R2 := diags (col_of rows 2) in
  [[Z; R2; neg R1]; [neg R2; Z; R0]; [R1; neg R0; Z]].

(** ** Python values, keyword arguments and mappings *)

Inductive pyvalue : Type :=
| PyNone
| PyFloat (x : R)
| PyArray (a : ndarray).

(** A dictionary with string keys, in insertion order. *)
Definition dict (V : Type) : Type := list (string * V).

Fixpoint dict_get {V : Type} (key : string) (d : dict V) : option V :=
  match d with
  | [] => None
  | (k, v) :: d' => if String.eqb k key then Some v else dict_get key d'
  end.

(** [d.pop(key, None)]: what is left of [d]. *)
Definition dict_pop {V : Type} (key : string) (d : dict V) : dict V :=
  filter (fun kv => negb (String.eqb (fst kv) key)) d.

Definition dict_values {V : Type} (d : dict V) : list V := map snd d.

(** The mapping collaborator: [mapping.shape[0]] ([None] stands for "*"),
    [mapping * m] and [mapping.deriv(m)]. *)
Record Mapping : Type := {
  map_shape0 : option nat;
  map_apply : list R -> list R;
  map_deriv : list R -> spmatrix
}.

(** The mesh argument of a constructor: a discretize mesh (given by the
    regularization mesh that wraps it), a regularization mesh, or any other
    object. *)
Inductive pyobject : Type :=
| PyBaseMesh (wrapped : RegularizationMesh)
| PyRegularizationMesh (m : RegularizationMesh)
| PyOther.

(** ** CrossReferenceRegularization.__init__ *)

Record CrossReferenceRegularization : Type := {
  regularization_mesh : RegularizationMesh;
  mapping : option Mapping;
  reference_model : pyvalue;
  _weights : dict ndarray;
  ref_state : RefDirState;
  _W : option spmatrix
}.

Section Constructors.

(** The [active_cells] setter of the regularization mesh (external). *)
Variable set_active_cells :
  RegularizationMesh -> list bool -> RegularizationMesh.

Definition with_active_cells (m : RegularizationMesh)
  (active_cells : option (list bool)) : RegularizationMesh :=
  match active_cells with
  | Some a => set_active_cells m a
  | None => m
  end.

(** Modelled from the spec: the initialiser of the parent classes
    (Smallness, BaseRegularization) is not under src/.  It rejects a mesh
    argument that is neither a mesh nor a regularization mesh with a
    TypeError, and keeps the mesh with its active cells, the mapping, the
    weights and, when the keyword is present, the reference model. *)
Definition Smallness_init (mesh : pyobject)
  (active_cells : option (list bool)) (mapping : option Mapping)
  (weights : option (dict ndarray)) (kwargs : dict pyvalue)
  : result CrossReferenceRegularization :=
  match mesh with
  | PyOther => Raise TypeError
  | PyBaseMesh m | PyRegularizationMesh m =>
      Ok {| regularization_mesh := with_active_cells m active_cells;
            mapping := mapping;
            reference_model :=
              match dict_get "reference_model" kwargs with
              | Some v => v
              | None => PyNone
              end;
            _weights := match weights with Some w => w | None => [] end;
            ref_state := {| _ref_dir := None; _X := None |};
            _W := None |}
  end.

(** Attribute assignments [self.reference_model = v] and the update of the
    attributes written by the [ref_dir] setter. *)
Definition set_reference_model (self : CrossReferenceRegularization)
  (v : pyvalue) : CrossReferenceRegularization :=
  {| regularization_mesh := regularization_mesh self;
     mapping := mapping self;
     reference_model := v;
     _weights := _weights self;
     ref_state := ref_state self;
     _W := _W self |}.

Definition set_ref_state (self : CrossReferenceRegularization)
  (st : RefDirState) : CrossReferenceRegularization :=
  {| regularization_mesh := regularization_mesh self;
     mapping := mapping self;
     reference_model := reference_model self;
     _weights := _weights self;
     ref_state := st;
     _W := _W self |}.

Definition set_W (self : CrossReferenceRegularization)
  (M : option spmatrix) : CrossReferenceRegularization :=
  {| regularization_mesh := regularization_mesh self;
     mapping := mapping self;
     reference_model := reference_model self;
     _weights := _weights self;
     ref_state := ref_state self;
     _W := M |}.

Definition CrossReferenceRegularization_init (mesh : pyobject)
  (ref_dir : ndarray) (active_cells : option (list bool))
  (mapping : option Mapping) (weights : option (dict ndarray))
  (kwargs : dict pyvalue) : result CrossReferenceRegularization :=
  let kwargs := dict_pop "reference_model" kwargs in
  self <- Smallness_init mesh active_cells mapping weights kwargs ;;
  st <- set_ref_dir (regularization_mesh self) (ref_state self) ref_dir ;;
  let self := set_ref_state self st in
  Ok (set_reference_model self (PyFloat 0)).

(** numpy broadcasting of a binary operation over two rank-one arrays. *)
Definition broadcast2 (f : R -> R -> R) (a b : list R) : result (list R) :=
  if (length a =? length b)%nat then
    Ok (map (fun p => f (fst p) (snd p)) (combine a b))
  else match a, b with
       | [x], _ => Ok (map (f x) b)
       | _, [y] => Ok (map (fun x => f x y) a)
       | _, _ => Raise ValueError
       end.

(** Modelled from the spec: BaseRegularization._delta_m is not under src/.
    It returns the reference-shifted model: the model itself when there is
    no reference model, and [-reference_model + m] otherwise. *)
Definition _delta_m (reference_model : pyvalue) (m : list R)
  : result (list R) :=
  match reference_model with
  | PyNone => Ok m
  | PyFloat c => Ok (map (fun x => - c + x) m)
  | PyArray (A1 r) => broadcast2 (fun a b => - a + b) r m
  | PyArray (A2 _ _) => Raise ValueError
  end.

(** ** VectorAmplitude.__init__ *)

(** The regularization terms that the constructor allocates. *)
Inductive term : Type :=
| AmplitudeSmallness (mesh : RegularizationMesh) (mapping : option Mapping)
| AmplitudeSmoothnessFirstOrder (mesh : RegularizationMesh)
    (o : orientation) (mapping : option Mapping).

Record VectorAmplitude : Type := {
  _regularization_mesh : RegularizationMesh;
  objfcts : list term
}.

(** Allocation appends to the log of terms built so far. *)
Definition allocate (t : term) (log : list term) : term * list term :=
  (t, log ++ [t]).

Definition VectorAmplitude_init (mesh : pyobject)
  (mapping : option Mapping) (active_cells : option (list bool))
  (log : list term) : result VectorAmplitude * list term :=
  match mesh with
  | PyOther => (Raise TypeError, log)
  | PyBaseMesh m | PyRegularizationMesh m =>
      let mesh := with_active_cells m active_cells in
      let '(t0, log) := allocate (AmplitudeSmallness mesh mapping) log in
      let '(t1, log) :=
        allocate (AmplitudeSmoothnessFirstOrder mesh x_dir mapping) log in
      let objfcts := [t0; t1] in
      let '(objfcts, log) :=
        if (1 <? dim mesh)%nat then
          let '(t, log) :=
            allocate (AmplitudeSmoothnessFirstOrder mesh y_dir mapping) log
          in (objfcts ++ [t], log)
        else (objfcts, log) in
      let '(objfcts, log) :=
        if (2 <? dim mesh)%nat then
          let '(t, log) :=
            allocate (AmplitudeSmoothnessFirstOrder mesh z_dir mapping) log
          in (objfcts ++ [t], log)
        else (objfcts, log) in
      (Ok {| _regularization_mesh := mesh; objfcts := objfcts |}, log)
  end.

End Constructors.

(** ** Column-major reshaping, flattening and row norms *)

(** [a.flatten(order="F")]: the elements column by column. *)
Definition ravel_F (a : ndarray) : list R :=
  match a with
  | A1 v => v
  | A2 c rows => flat_map (fun j => map (fun r => nth j r 0) rows) (seq 0 c)
  end.

(** [c] consecutive chunks of length [r]. *)
Fixpoint chunks (r c : nat) (v : list R) : list (list R) :=
  match c with
  | O => []
  | S c' => firstn r v :: chunks r c' (skipn r v)
  end.

(** The [r] rows of the matrix whose columns are [cols]. *)
Definition rows_of_columns (r : nat) (cols : list (list R))
  : list (list R) :=
  map (fun i => map (fun col => nth i col 0) cols) (seq 0 r).

(** [a.reshape((r, c), order="F")]: the elements are read column by column
    and fill the new array column by column. *)
Definition reshape_F (a : ndarray) (r c : nat) : result ndarray :=
  if (size a =? r * c)%nat then
    Ok (A2 c (rows_of_columns r (chunks r c (ravel_F a))))
  else Raise ValueError.

(** [a.reshape((-1, c), order="F")] *)
Definition reshape_F_auto (a : ndarray) (c : nat) : result ndarray :=
  if (c =? 0)%nat then Raise ValueError
  else if (size a mod c =? 0)%nat then reshape_F a (size a / c) c
  else Raise ValueError.

Definition sum_sq (row : list R) : R :=
  fold_right Rplus 0 (map (fun x => x * x) row).

(** [np.linalg.norm(a, axis=1)] *)
Definition norm_axis1 (a : ndarray) : result (list R) :=
  match a with
  | A1 _ => Raise AxisError
  | A2 _ rows => Ok (map (fun r => sqrt (sum_sq r)) rows)
  end.

(** ** Products of sparse matrices *)

Definition matmul_raw (A B : spmatrix) : spmatrix :=
  {| nrows := nrows A;
     ncols := ncols B;
     coef := fun i j => Rsum (ncols A) (fun k => coef A i k * coef B k j) |}.

(** Sparse times sparse: [A * B], [A @ B]. *)
Definition matmul (A B : spmatrix) : result spmatrix :=
  if (ncols A =? nrows B)%nat then Ok (matmul_raw A B) else Raise ValueError.

(** Sparse times a rank-two array: the result is a rank-two array. *)
Definition matdense (A : spmatrix) (b : ndarray) : result ndarray :=
  match b with
  | A1 v => a <- matvec A v ;; Ok (A1 a)
  | A2 c rows =>
      if (length rows =? ncols A)%nat then
        Ok (A2 c (map (fun i =>
                         map (fun j =>
                                Rsum (ncols A)
                                     (fun k => coef A i k * entry rows k j))
                             (seq 0 c))
                      (seq 0 (nrows A))))
      else Raise ValueError
  end.

Definition diag_cat (A B : spmatrix) : spmatrix :=
  {| nrows := (nrows A + nrows B)%nat;
     ncols := (ncols A + ncols B)%nat;
     coef := fun i j =>
       if (i <? nrows A)%nat then
         if (j <? ncols A)%nat then coef A i j else 0
       else
         if (j <? ncols A)%nat then 0
         else coef B (i - nrows A) (j - ncols A) |}.

Fixpoint block_diag_raw (A : spmatrix) (rest : list spmatrix) : spmatrix :=
  match rest with
  | [] => A
  | B :: rest' => diag_cat A (block_diag_raw B rest')
  end.

(** [sp.block_diag(mats)]; an empty list of blocks is an error. *)
Definition block_diag (mats : list spmatrix) : result spmatrix :=
  match mats with
  | [] => Raise ValueError
  | A :: rest => Ok (block_diag_raw A rest)
  end.

(** ** BaseVectorRegularization and BaseAmplitude *)

(** What the functions of the vector-amplitude classes return: a rank-one
    array or a sparse matrix. *)
Inductive retval : Type :=
| RetArray (v : list R)
| RetMatrix (A : spmatrix).

Section BaseAmplitude.

(** The attributes and the methods that the subclasses provide. *)
Variable mesh : RegularizationMesh.
Variable mp : Mapping.
Variable ref_model : pyvalue.
Variable W : result spmatrix.
Variable f_m_deriv : list R -> result spmatrix.

(** [BaseVectorRegularization.n_comp] *)
Definition n_comp : result nat :=
  match map_shape0 mp with
  | None => Ok (dim mesh)
  | Some s =>
      if (nC mesh =? 0)%nat then Raise ZeroDivisionError
      else Ok (s / nC mesh)%nat
  end.

(** [BaseVectorRegularization._weights_shapes] *)
Definition _weights_shapes : result (list (list nat)) :=
  nc <- n_comp ;;
  Ok [[nC mesh]; [(nc * nC mesh)%nat]; [nC mesh; nc]].

Definition amplitude (m : list R) : result (list R) :=
  d <- _delta_m ref_model m ;;
  nc <- n_comp ;;
  a <- reshape_F (A1 (map_apply mp d)) (nC mesh) nc ;;
  norm_axis1 a.

(** The weighted residual shared by [deriv] and the matrix-free branch of
    [deriv2]: [(W.T @ W @ u.reshape((-1, n_comp), order="F"))
    .flatten(order="F")]. *)
Definition weighted_columns (Wm : spmatrix) (u : list R)
  : result (list R) :=
  W2 <- matmul (transpose Wm) Wm ;;
  nc <- n_comp ;;
  a <- reshape_F_auto (A1 u) nc ;;
  wa <- matdense W2 a ;;
  Ok (ravel_F wa).

Definition deriv (m : list R) : result (list R) :=
  d_m <- _delta_m ref_model m ;;
  J <- f_m_deriv m ;;
  Wm <- W ;;
  J' <- f_m_deriv m ;;
  u <- matvec J' d_m ;;
  f <- weighted_columns Wm u ;;
  matvec (transpose J) f.

Definition deriv2 (m : list R) (v : option (list R)) : result retval :=
  J <- f_m_deriv m ;;
  match v with
  | None =>
      Wm <- W ;;
      W2 <- matmul (transpose Wm) Wm ;;
      nc <- n_comp ;;
      B <- block_diag (repeat W2 nc) ;;
      BJ <- matmul B J ;;
      H <- matmul (transpose J) BJ ;;
      Ok (RetMatrix H)
  | Some v =>
      Wm <- W ;;
      u <- matvec J v ;;
      f <- weighted_columns Wm u ;;
      g <- matvec (transpose J) f ;;
      Ok (RetArray g)
  end.

End BaseAmplitude.

(** The per-row Euclidean norm of the (n, nc) matrix whose entry (i, j) is
    element [i + j * n] of [x], stated on its own. *)
Definition row_norm (n nc : nat) (x : list R) (i : nat) : R :=
  sqrt (Rsum nc (fun j => comp n x j i * comp n x j i)).

(** Two mappings used as instances: the identity mapping of unspecified
    size, and the linear mapping given by a matrix. *)
Definition identity_map : Mapping :=
  {| map_shape0 := None;
     map_apply := fun x => x;
     map_deriv := fun x => diags (repeat 1 (length x)) |}.

Definition linear_map (J : spmatrix) : Mapping :=
  {| map_shape0 := Some (nrows J);
     map_apply := matvec_raw J;
     map_deriv := fun _ => J |}.

(** ** Element-wise arithmetic on arrays *)

Definition mul_vec (a b : list R) : list R :=
  map (fun p => fst p * snd p) (combine a b).

Definition mapi {A B : Type} (f : nat -> A -> B) (l : list A) : list B :=
  map (fun p => f (fst p) (snd p)) (combine (seq 0 (length l)) l).

(** [a *= b] on arrays: [b] is broadcast to the shape of [a], which the
    operation cannot change. *)
Definition imul (a b : ndarray) : result ndarray :=
  match a, b with
  | A1 x, A1 y =>
      if (length y =? length x)%nat then Ok (A1 (mul_vec x y))
      else match y with
           | [s] => Ok (A1 (map (fun t => t * s) x))
           | _ => Raise ValueError
           end
  | A1 _, A2 _ _ => Raise ValueError
  | A2 c rows, A1 y =>
      if (length y =? c)%nat then Ok (A2 c (map (fun r => mul_vec r y) rows))
      else match y with
           | [s] => Ok (A2 c (map (map (fun t => t * s)) rows))
           | _ => Raise ValueError
           end
  | A2 c rows, A2 c' rows' =>
      let same_r := (length rows' =? length rows)%nat in
      let same_c := (c' =? c)%nat in
      if (same_r || (length rows' =? 1)%nat) && (same_c || (c' =? 1)%nat)
      then
        Ok (A2 c (mapi (fun i r =>
                          mapi (fun j t =>
                                  t * entry rows' (if same_r then i else 0)
                                                  (if same_c then j else 0))
                               r)
                       rows))
      else Raise ValueError
  end.

(** [np.sqrt(a)] *)
Definition sqrt_array (a : ndarray) : ndarray :=
  match a with
  | A1 v => A1 (map sqrt v)
  | A2 c rows => A2 c (map (map sqrt) rows)
  end.

(** A loop over a list that threads an accumulator and stops at the first
    exception. *)
Fixpoint for_each {S A : Type} (body : S -> A -> result S) (l : list A)
  (s : S) : result S :=
  match l with
  | [] => Ok s
  | a :: l' => s' <- body s a ;; for_each body l' s'
  end.

(** ** CrossReferenceRegularization.W *)

Definition cross_reference_weights (mesh : RegularizationMesh)
  (weights : ndarray) (value : ndarray) : result ndarray :=
  if shape_eqb (shape value) [nC mesh] then imul weights value
  else if (size value =? dim mesh * nC mesh)%nat then
    a <- reshape_F value (nC mesh) (dim mesh) ;;
    nrm <- norm_axis1 a ;;
    imul weights (A1 nrm)
  else Ok weights.

Definition cross_reference_diag (mesh : RegularizationMesh)
  (registered : dict ndarray) : result (list R) :=
  weights <- for_each (cross_reference_weights mesh)
                      (dict_values registered)
                      (A1 (repeat 1 (nC mesh))) ;;
  match sqrt_array weights with
  | A1 w => Ok (if (dim mesh =? 2)%nat then w else w ++ w ++ w)
  | A2 _ _ => Raise ValueError
  end.

(** The property computes the matrix when none is cached and caches it. *)
Definition CrossReferenceRegularization_W (self : CrossReferenceRegularization)
  : result (spmatrix * CrossReferenceRegularization) :=
  match _W self with
  | Some M => Ok (M, self)
  | None =>
      d <- cross_reference_diag (regularization_mesh self) (_weights self) ;;
      Ok (diags d, set_W self (Some (diags d)))
  end.

(** ** AmplitudeSmallness.W and AmplitudeSmoothnessFirstOrder.W *)

(** An amplitude term: a smallness term, or a smoothness term with its
    orientation. *)
Record AmplitudeTerm : Type := {
  term_mesh : RegularizationMesh;
  term_mapping : Mapping;
  term_reference_model : pyvalue;
  term_weights : dict ndarray;
  orientation_ : orientation;
  cell_gradient : spmatrix;
  term_W : option spmatrix
}.

Definition set_term_W (self : AmplitudeTerm) (M : option spmatrix)
  : AmplitudeTerm :=
  {| term_mesh := term_mesh self;
     term_mapping := term_mapping self;
     term_reference_model := term_reference_model self;
     term_weights := term_weights self;
     orientation_ := orientation_ self;
     cell_gradient := cell_gradient self;
     term_W := M |}.

Definition amplitude_smallness_weights (self : AmplitudeTerm)
  (weights : ndarray) (value : ndarray) : result ndarray :=
  let mesh := term_mesh self in
  if shape_eqb (shape value) [nC mesh] then imul weights value
  else
    nc <- n_comp mesh (term_mapping self) ;;
    if shape_eqb (shape value) [(nc * nC mesh)%nat] then
      a <- reshape_F value (nC mesh) nc ;;
      nrm <- norm_axis1 a ;;
      imul weights (A1 nrm)
    else Ok weights.

Definition AmplitudeSmallness_W (self : AmplitudeTerm)
  : result (spmatrix * AmplitudeTerm) :=
  match term_W self with
  | Some M => Ok (M, self)
  | None =>
      weights <- for_each (amplitude_smallness_weights self)
                          (dict_values (term_weights self))
                          (A1 (repeat 1 (nC (term_mesh self)))) ;;
      match sqrt_array weights with
      | A1 w => Ok (diags w, set_term_W self (Some (diags w)))
      | A2 _ _ => Raise ValueError
      end
  end.

(** The accumulator of the smoothness weights starts as the Python float
    [1.0] and becomes an array at the first product. *)
Inductive accum : Type :=
| AccFloat (x : R)
| AccArray (a : ndarray).

Definition scale_array (x : R) (a : ndarray) : ndarray :=
  match a with
  | A1 v => A1 (map (fun t => x * t) v)
  | A2 c rows => A2 c (map (map (fun t => x * t)) rows)
  end.

(** [weights *= values] *)
Definition accum_imul (weights : accum) (values : ndarray) : result accum :=
  match weights with
  | AccFloat x => Ok (AccArray (scale_array x values))
  | AccArray a => r <- imul a values ;; Ok (AccArray r)
  end.

(** [sp.diags(np.sqrt(weights), format="csr")]: a float has no length, an
    array of rank two is not one diagonal. *)
Definition diags_of_sqrt (weights : accum) : result spmatrix :=
  match weights with
  | AccFloat _ => Raise TypeError
  | AccArray (A1 v) => Ok (diags (map sqrt v))
  | AccArray (A2 _ _) => Raise ValueError
  end.

(** [values.shape[0]] *)
Definition shape0 (a : ndarray) : nat :=
  match a with
  | A1 v => length v
  | A2 _ rows => length rows
  end.

Definition amplitude_smoothness_weights (self : AmplitudeTerm)
  (weights : accum) (values : ndarray) : result accum :=
  let average_cell_2_face := aveCC2F (term_mesh self) (orientation_ self) in
  let nC := nC (term_mesh self) in
  let nF := nrows average_cell_2_face in
  values <-
    (if (shape0 values =? nC)%nat then matdense average_cell_2_face values
     else if negb (shape_eqb (shape values) [nF]) then
       nc <- n_comp (term_mesh self) (term_mapping self) ;;
       a <- reshape_F_auto values nc ;;
       nrm <- norm_axis1 a ;;
       if (length nrm =? nC)%nat then matdense average_cell_2_face (A1 nrm)
       else Ok (A1 nrm)
     else Ok values) ;;
  accum_imul weights values.

Definition AmplitudeSmoothnessFirstOrder_W (self : AmplitudeTerm)
  : result (spmatrix * AmplitudeTerm) :=
  match term_W self with
  | Some M => Ok (M, self)
  | None =>
      weights <- for_each (amplitude_smoothness_weights self)
                          (dict_values (term_weights self))
                          (AccFloat 1) ;;
      M <- diags_of_sqrt weights ;;
      Ok (M, set_term_W self (Some M))
  end.

(** [AmplitudeSmoothnessFirstOrder._weights_shapes] *)
Definition smoothness_weights_shapes (self : AmplitudeTerm)
  : result (list (list nat)) :=
  let nC := nC (term_mesh self) in
  let nF := nrows (aveCC2F (term_mesh self) (orientation_ self)) in
  nc <- n_comp (term_mesh self) (term_mapping self) ;;
  Ok [[nF]; [(nc * nF)%nat]; [nF; nc];
      [nC]; [(nc * nC)%nat]; [nC; nc]].

(** ** Kernel functions of the amplitude terms *)

(** [AmplitudeSmallness.f_m] *)
Definition AmplitudeSmallness_f_m (self : AmplitudeTerm) (m : list R)
  : result (list R) :=
  amplitude (term_mesh self) (term_mapping self) (term_reference_model self) m.

(** Modelled from the spec: the kernel derivative that the smallness term
    inherits (Smallness.f_m_deriv) is not under src/.  It is the derivative
    of the mapping at the reference-shifted model. *)
Definition AmplitudeSmallness_f_m_deriv (self : AmplitudeTerm) (m : list R)
  : result spmatrix :=
  d <- _delta_m (term_reference_model self) m ;;
  Ok (map_deriv (term_mapping self) d).

(** [AmplitudeSmoothnessFirstOrder.f_m] *)
Definition AmplitudeSmoothnessFirstOrder_f_m (self : AmplitudeTerm)
  (m : list R) : result (list R) :=
  a <- amplitude (term_mesh self) (term_mapping self)
                 (term_reference_model self) m ;;
  matvec (cell_gradient self) a.

(** [AmplitudeSmoothnessFirstOrder.f_m_deriv] *)
Definition AmplitudeSmoothnessFirstOrder_f_m_deriv (self : AmplitudeTerm)
  (m : list R) : result spmatrix :=
  nc <- n_comp (term_mesh self) (term_mapping self) ;;
  G <- block_diag (repeat (cell_gradient self) nc) ;;
  d <- _delta_m (term_reference_model self) m ;;
  matmul G (map_deriv (term_mapping self) d).

(** The value of the [W] property, the cache aside. *)
Definition W_value (r : result (spmatrix * AmplitudeTerm))
  : result spmatrix :=
  p <- r ;; Ok (fst p).

(** [deriv] and [deriv2] of the two amplitude terms. *)
Definition AmplitudeSmallness_deriv (self : AmplitudeTerm) (m : list R)
  : result (list R) :=
  deriv (term_mesh self) (term_mapping self) (term_reference_model self)
        (W_value (AmplitudeSmallness_W self))
        (AmplitudeSmallness_f_m_deriv self) m.

Definition AmplitudeSmallness_deriv2 (self : AmplitudeTerm) (m : list R)
  (v : option (list R)) : result retval :=
  deriv2 (term_mesh self) (term_mapping self)
         (W_value (AmplitudeSmallness_W self))
         (AmplitudeSmallness_f_m_deriv self) m v.

Definition AmplitudeSmoothnessFirstOrder_deriv (self : AmplitudeTerm)
  (m : list R) : result (list R) :=
  deriv (term_mesh self) (term_mapping self) (term_reference_model self)
        (W_value (AmplitudeSmoothnessFirstOrder_W self))
        (AmplitudeSmoothnessFirstOrder_f_m_deriv self) m.

Definition AmplitudeSmoothnessFirstOrder_deriv2 (self : AmplitudeTerm)
  (m : list R) (v : option (list R)) : result retval :=
  deriv2 (term_mesh self) (term_mapping self)
         (W_value (AmplitudeSmoothnessFirstOrder_W self))
         (AmplitudeSmoothnessFirstOrder_f_m_deriv self) m v.

(** ** The weighting of the cross-reference term, stated on its own *)

(** The scalar that one registered array contributes to cell [i]: its entry
    when the array has one value per cell, the Euclidean norm across the
    [d] components of the cell when it has one value per component. *)
Definition cell_weight (n d : nat) (value : ndarray) (i : nat) : R :=
  match value with
  | A1 v =>
      if (length v =? n)%nat then nth i v 0
      else sqrt (Rsum d (fun j => comp n v j i * comp n v j i))
  | A2 _ rows => sqrt (Rsum d (fun j => entry rows i j * entry rows i j))
  end.

(** The product over all registered arrays. *)
Definition combined_weight (n d : nat) (registered : list ndarray) (i : nat)
  : R :=
  fold_right (fun value acc => cell_weight n d value i * acc) 1 registered.

(** The shapes a registered array may have on a mesh of dimension [d]. *)
Definition acceptable_shape (n d : nat) (value : ndarray) : Prop :=
  shape value = [n] \/ shape value = [(d * n)%nat] \/ shape value = [n; d].

(** Instances with nothing cached, for the examples. *)
Definition cross_reference_instance (mesh : RegularizationMesh)
  (weights : dict ndarray) : CrossReferenceRegularization :=
  {| regularization_mesh := mesh;
     mapping := None;
     reference_model := PyFloat 0;
     _weights := weights;
     ref_state := {| _ref_dir := None; _X := None |};
     _W := None |}.

(** The difference of the two cells next to each face of a line of cells. *)
Definition line_gradient (f n : nat) : spmatrix :=
  {| nrows := f; ncols := n;
     coef := fun i j =>
       if (j =? i)%nat then 1 else if (S j =? i)%nat then -1 else 0 |}.

Definition amplitude_instance (mesh : RegularizationMesh) (mp : Mapping)
  (o : orientation) (weights : dict ndarray) : AmplitudeTerm :=
  {| term_mesh := mesh;
     term_mapping := mp;
     term_reference_model := PyNone;
     term_weights := weights;
     orientation_ := o;
     cell_gradient := line_gradient (S (nC mesh)) (nC mesh);
     term_W := None |}.

(** [W.T * W], and the block-diagonal matrix of [n + 1] copies of it. *)
Definition gram (Wm : spmatrix) : spmatrix := matmul_raw (transpose Wm) Wm.

Definition block_gram (Wm : spmatrix) (n : nat) : spmatrix :=
  block_diag_raw (gram Wm) (repeat (gram Wm) n).

(** ** CrossReferenceRegularization: _nC_residual, f_m and f_m_deriv *)

(** [np.prod(self.ref_dir.shape)]; there is no value before a reference
    direction was stored. *)
Definition _nC_residual (self : RefDirState) : option nat :=
  match _ref_dir self with
  | Some a => Some (fold_right Nat.mul 1%nat (shape a))
  | None => None
  end.

(** [self._X @ (self.mapping * m)], for the stored operator and the mapping
    of the instance. *)
Definition CrossReferenceRegularization_f_m (X : spmatrix) (mp : Mapping)
  (m : list R) : result (list R) :=
  matvec X (map_apply mp m).

(** [self._X @ self.mapping.deriv(m)] *)
Definition CrossReferenceRegularization_f_m_deriv (X : spmatrix)
  (mp : Mapping) (m : list R) : result spmatrix :=
  matmul X (map_deriv mp m).

(** [a * x + b * y] on rank-one arrays of equal length. *)
Definition lincomb (a b : R) (x y : list R) : list R :=
  map (fun p => a * fst p + b * snd p) (combine x y).

(** The operators of the two branches of the setter, assembled. *)
Definition cross_operator2 (rows : list (list R)) : spmatrix :=
  hcat (diags (col_of rows 1)) (neg (diags (col_of rows 0))).

Definition cross_operator3 (rows : list (list R)) : spmatrix :=
  let n := length rows in
  let Z := csr_zero n n in
  let R0 := diags (col_of rows 0) in
  let R1 := diags (col_of rows 1) in
  let R2 := diags (col_of rows 2) in
  vcat (vcat (hcat (hcat Z R2) (neg R1)) (hcat (hcat (neg R2) Z) R0))
       (hcat (hcat R1 (neg R0)) Z).

(** ** The weighting of the smallness term, stated on its own *)

(** The factor that one registered array contributes to cell [i] of the
    smallness term: its entry when it has one value per cell, the Euclidean
    norm across the [nc] components when it is a flat array with one value
    per component, and one for every other array. *)
Definition smallness_cell_weight (n nc : nat) (value : ndarray) (i : nat)
  : R :=
  match value with
  | A1 v =>
      if (length v =? n)%nat then nth i v 0
      else if (length v =? nc * n)%nat then
        sqrt (Rsum nc (fun j => comp n v j i * comp n v j i))
      else 1
  | A2 _ _ => 1
  end.

Definition smallness_combined_weight (n nc : nat) (registered : list ndarray)
  (i : nat) : R :=
  fold_right (fun value acc => smallness_cell_weight n nc value i * acc)
             1 registered.

(** ** The weighting of the smoothness term, stated on its own *)

(** The Euclidean norms across [nc] components of the [n] locations of a
    flat array. *)
Definition cell_norms (n nc : nat) (v : list R) : list R :=
  map (row_norm n nc v) (seq 0 n).

(** The per-face factor of one registered array, for the averaging operator
    [A] of a mesh with [n] cells and [f] faces: a cell array is averaged to
    faces, a face array is taken as it is, a flat per-component array is
    first reduced by its norm across components, and averaged if it was
    given on cells; an array of rank two holds the components of a face in a
    row. *)
Definition face_weight (A : spmatrix) (n f nc : nat) (value : ndarray)
  : list R :=
  match value with
  | A1 v =>
      if (length v =? n)%nat then matvec_raw A v
      else if (length v =? f)%nat then v
      else if (length v =? nc * n)%nat then matvec_raw A (cell_norms n nc v)
      else cell_norms f nc v
  | A2 _ rows =>
      map (fun i => sqrt (Rsum nc (fun j => entry rows i j * entry rows i j)))
          (seq 0 f)
  end.

Definition combined_face_weight (A : spmatrix) (n f nc : nat)
  (registered : list ndarray) (i : nat) : R :=
  fold_right (fun value acc => nth i (face_weight A n f nc value) 0 * acc)
             1 registered.

(** The registered arrays that the smoothness term combines: rank-one arrays
    on cells or faces, flat or not, and rank-two arrays on faces. *)
Definition face_acceptable (n f nc : nat) (value : ndarray) : Prop :=
  match value with
  | A1 v =>
      length v = n \/ length v = f
      \/ length v = (nc * n)%nat \/ length v = (nc * f)%nat
  | A2 c rows => c = nc /\ length rows = f /\ f <> n
  end.

(** The dot product of two rank-one arrays, over the length of the
    first. *)
Definition dot (x y : list R) : R :=
  Rsum (length x) (fun i => nth i x 0 * nth i y 0).

(** * simpegMT.Utils.dataUtils *)

(** A complex number as numpy holds it: its real and imaginary parts. *)
Record complex : Type := { real : R; imag : R }.

(** [np.abs(z)] *)
Definition np_abs (z : complex) : R :=
  sqrt (real z * real z + imag z * imag z).

(** [np.arctan2(y, x)] on the reals: the angle of the point (x, y), in
    (-pi, pi], zero at the origin.  Signed zeros are not distinguished. *)
Definition arctan2 (y x : R) : R :=
  if Rlt_dec 0 x then atan (y / x)
  else if Rlt_dec x 0 then
    if Rle_dec 0 y then atan (y / x) + PI else atan (y / x) - PI
  else if Rlt_dec 0 y then PI / 2
  else if Rlt_dec y 0 then - (PI / 2)
  else 0.

(** [appResPhs(freq, z)]: apparent resistivity and phase (in degrees) of the
    impedance [z] at frequency [freq]. *)
Definition appResPhs (freq : R) (z : complex) : R * R :=
  let app_res := ((1 / (8e-7 * PI ^ 2)) / freq) * np_abs z ^ 2 in
  let app_phs := arctan2 (imag z) (real z) * (180 / PI) in
  (app_res, app_phs).

(** The product of a real number and a complex number. *)
Definition cscale (c : R) (z : complex) : complex :=
  {| real := c * real z; imag := c * imag z |}.

(* ================================================================== *)
(** * Properties *)
(* ================================================================== *)

(** ** Sums *)

Lemma Rsum_ext (n : nat) (f g : nat -> R) :
  (forall j, (j < n)%nat -> f j = g j) -> Rsum n f = Rsum n g.
Proof.
  induction n as [|n IH]; intros H; simpl; [reflexivity|].
  rewrite IH, H by auto with arith. reflexivity.
Qed.

Lemma Rsum_zero (n : nat) : Rsum n (fun _ => 0) = 0.
Proof. induction n as [|n IH]; simpl; [|rewrite IH]; lra. Qed.

Lemma Rsum_plus (n : nat) (f g : nat -> R) :
  Rsum n (fun j => f j + g j) = Rsum n f + Rsum n g.
Proof. induction n as [|n IH]; simpl; [|rewrite IH]; lra. Qed.

Lemma Rsum_scal (n : nat) (c : R) (f : nat -> R) :
  Rsum n (fun j => c * f j) = c * Rsum n f.
Proof. induction n as [|n IH]; simpl; [|rewrite IH]; lra. Qed.

Lemma Rsum_app (a b : nat) (f : nat -> R) :
  Rsum (a + b) f = Rsum a f + Rsum b (fun j => f (a + j)%nat).
Proof.
  induction b as [|b IH].
  - rewrite Nat.add_0_r. simpl. lra.
  - rewrite Nat.add_succ_r. simpl. rewrite IH. lra.
Qed.

(** A sum against a Kronecker delta picks one term. *)
Lemma Rsum_delta (n i : nat) (a : R) (g : nat -> R) :
  Rsum n (fun j => (if (i =? j)%nat then a else 0) * g j)
  = if (i <? n)%nat then a * g i else 0.
Proof.
  induction n as [|n IH]; simpl; [reflexivity|].
  rewrite IH.
  destruct (Nat.eqb_spec i n) as [->|Hne].
  - rewrite Nat.ltb_irrefl.
    replace (n <? S n)%nat with true by (symmetry; apply Nat.ltb_lt; lia).
    lra.
  - destruct (Nat.ltb_spec i n), (Nat.ltb_spec i (S n)); try lia; lra.
Qed.

Lemma Rsum_swap (a b : nat) (f : nat -> nat -> R) :
  Rsum a (fun i => Rsum b (fun j => f i j))
  = Rsum b (fun j => Rsum a (fun i => f i j)).
Proof.
  induction a as [|a IH]; simpl.
  - symmetry. apply Rsum_zero.
  - rewrite IH, <- Rsum_plus. reflexivity.
Qed.

(** ** Shapes *)

Lemma seq_offset (a n : nat) :
  seq a n = map (fun i => (a + i)%nat) (seq 0 n).
Proof.
  revert a; induction n as [|n IH]; intros a; simpl.
  - reflexivity.
  - f_equal; [lia|].
    rewrite (IH (S a)), <- seq_shift, map_map.
    apply map_ext; intros; lia.
Qed.

Lemma shape_eqb_eq (s t : list nat) : shape_eqb s t = true <-> s = t.
Proof.
  revert t; induction s as [|a s IH]; intros [|b t]; simpl;
    try (split; [discriminate | discriminate]); [tauto|].
  rewrite andb_true_iff, Nat.eqb_eq, IH.
  split; [intros [-> ->]; reflexivity | intros H; inversion H; auto].
Qed.

Lemma shape_eqb_refl (s : list nat) : shape_eqb s s = true.
Proof. apply shape_eqb_eq; reflexivity. Qed.

(** ** Rows of block matrices *)

Lemma rowdot_hcat (A B : spmatrix) (i : nat) (m : list R) (off : nat) :
  rowdot (hcat A B) i m off
  = rowdot A i m off + rowdot B i m (off + ncols A).
Proof.
  unfold rowdot; simpl. rewrite Rsum_app. f_equal.
  - apply Rsum_ext; intros j Hj.
    replace (j <? ncols A)%nat with true by (symmetry; apply Nat.ltb_lt; lia).
    reflexivity.
  - apply Rsum_ext; intros j Hj.
    replace (ncols A + j <? ncols A)%nat with false
      by (symmetry; apply Nat.ltb_ge; lia).
    replace (ncols A + j - ncols A)%nat with j by lia.
    rewrite Nat.add_assoc. reflexivity.
Qed.

Lemma rowdot_diags (v : list R) (i : nat) (m : list R) (off : nat) :
  (i < length v)%nat ->
  rowdot (diags v) i m off = nth i v 0 * nth (off + i) m 0.
Proof.
  intros Hi. unfold rowdot; simpl.
  rewrite (Rsum_delta (length v) i (nth i v 0) (fun j => nth (off + j) m 0)).
  replace (i <? length v)%nat with true by (symmetry; apply Nat.ltb_lt; lia).
  reflexivity.
Qed.

Lemma rowdot_neg (A : spmatrix) (i : nat) (m : list R) (off : nat) :
  rowdot (neg A) i m off = - rowdot A i m off.
Proof.
  unfold rowdot; simpl.
  replace (- Rsum (ncols A) (fun j => coef A i j * nth (off + j) m 0))
    with (-1 * Rsum (ncols A) (fun j => coef A i j * nth (off + j) m 0))
    by lra.
  rewrite <- Rsum_scal.
  apply Rsum_ext; intros; lra.
Qed.

Lemma rowdot_zero (r c i : nat) (m : list R) (off : nat) :
  rowdot (csr_zero r c) i m off = 0.
Proof.
  unfold rowdot; simpl.
  rewrite (Rsum_ext c _ (fun _ => 0)); [apply Rsum_zero | intros; lra].
Qed.

Lemma matvec_raw_rowdot (A : spmatrix) (m : list R) :
  matvec_raw A m = map (fun i => rowdot A i m 0) (seq 0 (nrows A)).
Proof. reflexivity. Qed.

Lemma matvec_raw_vcat (A B : spmatrix) (m : list R) :
  ncols B = ncols A ->
  matvec_raw (vcat A B) m = matvec_raw A m ++ matvec_raw B m.
Proof.
  intros Hc. unfold matvec_raw; simpl.
  rewrite seq_app, map_app; simpl. f_equal.
  - apply map_ext_in; intros i Hi. apply in_seq in Hi.
    apply Rsum_ext; intros j Hj.
    replace (i <? nrows A)%nat with true by (symmetry; apply Nat.ltb_lt; lia).
    reflexivity.
  - rewrite seq_offset, map_map, Hc.
    apply map_ext_in; intros i Hi.
    apply Rsum_ext; intros j Hj.
    replace (nrows A + i <? nrows A)%nat with false
      by (symmetry; apply Nat.ltb_ge; lia).
    replace (nrows A + i - nrows A)%nat with i by lia.
    reflexivity.
Qed.

(** ** Blocks of equal shape always assemble *)

Lemma bmat_1x2 (A B : spmatrix) :
  nrows B = nrows A -> bmat [[A; B]] = Ok (hcat A B).
Proof.
  intros H. unfold bmat, bmat_row_ok; simpl.
  rewrite H, !Nat.eqb_refl. reflexivity.
Qed.

Lemma bmat_3x3 (n : nat) (A B C D E F G H I : spmatrix) :
  Forall (fun M => nrows M = n /\ ncols M = n) [A; B; C; D; E; F; G; H; I] ->
  bmat [[A; B; C]; [D; E; F]; [G; H; I]]
  = Ok (vcat (vcat (hcat (hcat A B) C) (hcat (hcat D E) F))
             (hcat (hcat G H) I)).
Proof.
  intros HF.
  repeat (apply Forall_cons_iff in HF; destruct HF as [[? ?] HF]).
  unfold bmat, bmat_row_ok; simpl.
  repeat match goal with
         | Hx : _ = n |- _ => rewrite Hx; clear Hx
         end.
  rewrite !Nat.eqb_refl. reflexivity.
Qed.

Lemma nth_column (rows : list (list R)) (k i : nat) :
  nth i (map (fun r => nth k r 0) rows) 0 = entry rows i k.
Proof.
  unfold entry. revert i.
  induction rows as [|r rows IH]; intros [|i]; simpl; auto;
    destruct k; reflexivity.
Qed.

(** ** The cross-product operator *)

Lemma build_X_2d (n : nat) (rows : list (list R)) :
  build_X n (A2 2 rows) = bmat (X_blocks2 rows).
Proof. reflexivity. Qed.

Lemma build_X_3d (n : nat) (rows : list (list R)) :
  build_X n (A2 3 rows) = bmat (X_blocks3 n rows).
Proof. reflexivity. Qed.

Lemma bmat_X_blocks2 (rows : list (list R)) :
  bmat (X_blocks2 rows)
  = Ok (hcat (diags (col_of rows 1)) (neg (diags (col_of rows 0)))).
Proof.
  unfold X_blocks2. apply bmat_1x2. simpl.
  unfold col_of. rewrite !length_map. reflexivity.
Qed.

Lemma bmat_X_blocks3 (rows : list (list R)) :
  let n := length rows in
  let Z := csr_zero n n in
  let R0 := diags (col_of rows 0) in
  let R1 := diags (col_of rows 1) in
  let R2 := diags (col_of rows 2) in
  bmat (X_blocks3 n rows)
  = Ok (vcat (vcat (hcat (hcat Z R2) (neg R1)) (hcat (hcat (neg R2) Z) R0))
             (hcat (hcat R1 (neg R0)) Z)).
Proof.
  intros n Z R0 R1 R2. unfold X_blocks3. apply (bmat_3x3 n).
  repeat constructor; simpl; unfold col_of; rewrite ?length_map; reflexivity.
Qed.

Lemma length_col_of (rows : list (list R)) (k : nat) :
  length (col_of rows k) = length rows.
Proof. apply length_map. Qed.

Lemma matvec_X2 (rows : list (list R)) (m : list R) :
  length m = (2 * length rows)%nat ->
  matvec (hcat (diags (col_of rows 1)) (neg (diags (col_of rows 0)))) m
  = Ok (cross_field2 (length rows) m rows).
Proof.
  intros Hm. unfold matvec. cbn [ncols hcat diags neg nrows].
  rewrite !length_col_of.
  replace (length m =? length rows + length rows)%nat with true
    by (symmetry; apply Nat.eqb_eq; lia).
  f_equal. rewrite matvec_raw_rowdot. cbn [ncols hcat diags neg nrows].
  rewrite length_col_of.
  unfold cross_field2. apply map_ext_in; intros i Hi. apply in_seq in Hi.
  rewrite rowdot_hcat, rowdot_neg, !rowdot_diags
    by (rewrite length_col_of; lia).
  unfold col_of. rewrite !nth_column. cbn [ncols diags]. rewrite length_map.
  unfold cross2, comp. simpl.
  replace (i + (length rows + 0))%nat with (length rows + i)%nat by lia.
  rewrite Nat.add_0_r. lra.
Qed.

Ltac block_row_dot :=
  rewrite ?rowdot_hcat, ?rowdot_neg, ?rowdot_zero;
  rewrite ?rowdot_diags by (rewrite length_col_of; lia);
  unfold col_of; rewrite ?nth_column;
  cbn [ncols hcat diags neg csr_zero]; rewrite ?length_map.

Lemma matvec_X3 (rows : list (list R)) (m : list R) :
  let n := length rows in
  let Z := csr_zero n n in
  let R0 := diags (col_of rows 0) in
  let R1 := diags (col_of rows 1) in
  let R2 := diags (col_of rows 2) in
  length m = (3 * n)%nat ->
  matvec (vcat (vcat (hcat (hcat Z R2) (neg R1)) (hcat (hcat (neg R2) Z) R0))
               (hcat (hcat R1 (neg R0)) Z)) m
  = Ok (cross_field3 n m rows).
Proof.
  intros n Z R0 R1 R2 Hm. unfold matvec.
  cbn [ncols vcat hcat diags neg nrows csr_zero Z R0 R1 R2].
  rewrite !length_col_of. fold n.
  replace (length m =? n + n + n)%nat with true
    by (symmetry; apply Nat.eqb_eq; lia).
  f_equal.
  rewrite !matvec_raw_vcat
    by (cbn [ncols vcat hcat diags neg nrows csr_zero Z R0 R1 R2];
        rewrite !length_col_of; reflexivity).
  unfold cross_field3. rewrite <- app_assoc.
  rewrite !matvec_raw_rowdot.
  cbn [ncols vcat hcat diags neg nrows csr_zero Z R0 R1 R2].
  rewrite ?length_col_of. fold n.
  apply (f_equal2 (@app R)); [|apply (f_equal2 (@app R))];
    apply map_ext_in; intros i Hi; apply in_seq in Hi;
    unfold Z, R0, R1, R2; block_row_dot; fold n;
    unfold cross_cell3, cross3, comp; simpl;
    replace (n + i)%nat with (i + (n + 0))%nat by lia;
    replace (n + n + i)%nat with (i + (n + (n + 0)))%nat by lia;
    rewrite ?Nat.add_0_r; lra.
Qed.

Lemma length_cross_field2 (n : nat) (m : list R) (rows : list (list R)) :
  length (cross_field2 n m rows) = n.
Proof. unfold cross_field2. rewrite length_map, length_seq. reflexivity. Qed.

Lemma length_cross_field3 (n : nat) (m : list R) (rows : list (list R)) :
  length (cross_field3 n m rows) = (3 * n)%nat.
Proof.
  unfold cross_field3. rewrite !length_app, !length_map, !length_seq. lia.
Qed.

(** C1: for a reference direction field of shape (nC, dim), dim in {2, 3},
    the operator stored by the ref_dir setter is, in 2-D, the single block
    row [diag(r[:,1]), -diag(r[:,0])] and, in 3-D, the 3x3 block
    cross-product matrix of diag(r[:,0]), diag(r[:,1]), diag(r[:,2]); applied
    to a model stacked in per-component blocks of length nC it returns the
    cell-wise cross product of the model with the reference, of length nC in
    2-D and 3*nC in 3-D. *)
Theorem ref_dir_operator_is_cross_product
  (mesh : RegularizationMesh) (self : RefDirState) (rows : list (list R)) :
  (dim mesh = 2 \/ dim mesh = 3)%nat ->
  length rows = nC mesh ->
  exists X,
    set_ref_dir mesh self (A2 (dim mesh) rows)
    = Ok {| _ref_dir := Some (A2 (dim mesh) rows); _X := Some X |}
    /\ (dim mesh = 2%nat ->
        bmat (X_blocks2 rows) = Ok X
        /\ forall m, length m = (2 * nC mesh)%nat ->
             matvec X m = Ok (cross_field2 (nC mesh) m rows)
             /\ length (cross_field2 (nC mesh) m rows) = nC mesh)
    /\ (dim mesh = 3%nat ->
        bmat (X_blocks3 (nC mesh) rows) = Ok X
        /\ forall m, length m = (3 * nC mesh)%nat ->
             matvec X m = Ok (cross_field3 (nC mesh) m rows)
             /\ length (cross_field3 (nC mesh) m rows) = (3 * nC mesh)%nat).
Proof.
  intros Hdim Hn. unfold set_ref_dir, normalize_ref_dir.
  cbn [shape]. rewrite Hn, shape_eqb_refl. cbn [bind].
  destruct Hdim as [Hd | Hd]; rewrite Hd.
  - rewrite build_X_2d, bmat_X_blocks2.
    eexists; split; [reflexivity|]. split; [|discriminate].
    intros _. split; [reflexivity|].
    intros m Hm. rewrite <- Hn in *. split.
    + apply matvec_X2; assumption.
    + apply length_cross_field2.
  - rewrite build_X_3d, <- Hn, bmat_X_blocks3.
    eexists; split; [reflexivity|]. split; [discriminate|].
    intros _. split; [reflexivity|].
    intros m Hm. split.
    + apply matvec_X3; assumption.
    + apply length_cross_field3.
Qed.

Lemma ref_dir_operator_is_cross_product_witness :
  exists X,
    set_ref_dir (line_mesh 2 2) {| _ref_dir := None; _X := None |}
                (A2 2 [[1; 0]; [0; 1]])
    = Ok {| _ref_dir := Some (A2 2 [[1; 0]; [0; 1]]); _X := Some X |}
    /\ matvec X [1; 0; 1; 0] = Ok (cross_field2 2 [1; 0; 1; 0] [[1; 0]; [0; 1]]).
Proof.
  destruct (ref_dir_operator_is_cross_product
              (line_mesh 2 2) {| _ref_dir := None; _X := None |}
              [[1; 0]; [0; 1]] (or_introl eq_refl) eq_refl)
    as (X & Hset & H2 & _).
  exists X. split; [exact Hset|].
  destruct (H2 eq_refl) as [_ Hm].
  exact (proj1 (Hm [1; 0; 1; 0] eq_refl)).
Defined.

(** ** Shape and symmetry of the cross-product operator *)

Ltac split_index_cases :=
  repeat match goal with
         | |- context [(?a <? ?b)%nat] => destruct (Nat.ltb_spec a b)
         | |- context [(?a =? ?b)%nat] => destruct (Nat.eqb_spec a b)
         end.

Ltac align_nth :=
  repeat match goal with
         | |- context [nth ?a ?v 0] =>
             match goal with
             | |- context [nth ?b v 0] =>
                 first [ constr_eq a b; fail 1
                       | replace b with a by lia ]
             end
         end.

Lemma X3_skew (rows : list (list R)) (i j : nat) :
  let n := length rows in
  let Z := csr_zero n n in
  let R0 := diags (col_of rows 0) in
  let R1 := diags (col_of rows 1) in
  let R2 := diags (col_of rows 2) in
  let X := vcat (vcat (hcat (hcat Z R2) (neg R1)) (hcat (hcat (neg R2) Z) R0))
                (hcat (hcat R1 (neg R0)) Z) in
  coef (transpose X) i j = coef (neg X) i j.
Proof.
  intros n Z R0 R1 R2 X. unfold X, Z, R0, R1, R2.
  cbn [coef transpose neg vcat hcat diags csr_zero nrows ncols].
  rewrite !length_col_of. fold n.
  split_index_cases; try lia; try lra; align_nth; lra.
Qed.

Lemma normalize_ref_dir_inv (mesh : RegularizationMesh) (value v' : ndarray) :
  normalize_ref_dir mesh value = Ok v' ->
  exists rows, v' = A2 (dim mesh) rows /\ length rows = nC mesh.
Proof.
  unfold normalize_ref_dir.
  destruct (shape_eqb (shape value) [nC mesh; dim mesh]) eqn:E1.
  - intros H; inversion H; subst v'; clear H.
    apply shape_eqb_eq in E1.
    destruct value as [v | c rows]; simpl in E1; [discriminate|].
    inversion E1; subst. exists rows. split; [congruence | reflexivity].
  - destruct (shape_eqb (shape value) [dim mesh]) eqn:E2; [|discriminate].
    apply shape_eqb_eq in E2.
    destruct value as [v | c rows]; simpl in E2; [|discriminate].
    intros H; inversion H; subst v'; clear H.
    inversion E2 as [E3]. exists (repeat v (nC mesh)).
    unfold tile_rows. rewrite repeat_length. split; reflexivity.
Qed.

Lemma set_ref_dir_inv (mesh : RegularizationMesh) (self self' : RefDirState)
  (value : ndarray) :
  set_ref_dir mesh self value = Ok self' ->
  exists rows X,
    length rows = nC mesh
    /\ normalize_ref_dir mesh value = Ok (A2 (dim mesh) rows)
    /\ build_X (nC mesh) (A2 (dim mesh) rows) = Ok X
    /\ self' = {| _ref_dir := Some (A2 (dim mesh) rows); _X := Some X |}.
Proof.
  unfold set_ref_dir.
  destruct (normalize_ref_dir mesh value) as [v'|e] eqn:En; [|discriminate].
  destruct (normalize_ref_dir_inv _ _ _ En) as (rows & -> & Hlen).
  cbn [bind].
  destruct (build_X (nC mesh) (A2 (dim mesh) rows)) as [X|e] eqn:Eb;
    [|discriminate].
  intros H; inversion H; subst self'.
  exists rows, X. repeat split; assumption.
Qed.

(** C10 (amended): whenever the setter accepts a reference field, whatever the
    instance held before, the stored operator is the one built from the
    newly stored (nC, dim) field, and the mesh is 2-D or 3-D; on a 3-D mesh
    the operator has the square shape (3*nC, 3*nC) and its transpose equals
    its negation; on a 2-D mesh it is the single block row of shape
    (nC, 2*nC). *)
Theorem ref_dir_operator_shape_and_symmetry
  (mesh : RegularizationMesh) (self self' : RefDirState) (value : ndarray) :
  set_ref_dir mesh self value = Ok self' ->
  exists value' X,
    normalize_ref_dir mesh value = Ok value'
    /\ build_X (nC mesh) value' = Ok X
    /\ self' = {| _ref_dir := Some value'; _X := Some X |}
    /\ (dim mesh = 2 \/ dim mesh = 3)%nat
    /\ (dim mesh = 3%nat ->
        nrows X = (3 * nC mesh)%nat /\ ncols X = (3 * nC mesh)%nat
        /\ nrows (transpose X) = nrows (neg X)
        /\ ncols (transpose X) = ncols (neg X)
        /\ forall i j, coef (transpose X) i j = coef (neg X) i j)
    /\ (dim mesh = 2%nat ->
        nrows X = nC mesh /\ ncols X = (2 * nC mesh)%nat).
Proof.
  intros Hset.
  destruct (set_ref_dir_inv _ _ _ _ Hset) as (rows & X & Hlen & Hn & Hb & ->).
  exists (A2 (dim mesh) rows), X.
  split; [exact Hn|]. split; [exact Hb|]. split; [reflexivity|].
  split.
  { destruct (dim mesh) as [|[|[|[|d]]]]; cbn in Hb;
      try discriminate; auto. }
  split; intros Hd; rewrite Hd in Hb.
  - rewrite build_X_3d, <- Hlen, bmat_X_blocks3 in Hb.
    inversion Hb; subst X; clear Hb.
    cbn [nrows ncols transpose neg vcat hcat diags csr_zero].
    rewrite !length_col_of, <- Hlen.
    repeat split; try lia.
    intros i j. apply X3_skew.
  - rewrite build_X_2d, bmat_X_blocks2 in Hb.
    inversion Hb; subst X; clear Hb.
    cbn [nrows ncols hcat diags neg].
    rewrite !length_col_of, <- Hlen. split; lia.
Qed.

Lemma ref_dir_operator_shape_and_symmetry_witness :
  exists self' X,
    set_ref_dir (line_mesh 1 3) {| _ref_dir := None; _X := None |}
                (A1 [1; 0; 0]) = Ok self'
    /\ _X self' = Some X
    /\ nrows X = 3%nat /\ ncols X = 3%nat
    /\ forall i j, coef (transpose X) i j = coef (neg X) i j.
Proof.
  eexists.
  destruct (ref_dir_operator_shape_and_symmetry
              (line_mesh 1 3) {| _ref_dir := None; _X := None |}
              _ (A1 [1; 0; 0]) eq_refl)
    as (v' & X & _ & _ & Hs & _ & H3 & _).
  exists X. split; [reflexivity|].
  destruct (H3 eq_refl) as (Hr & Hc & _ & _ & Hsk).
  split; [inversion Hs; reflexivity|].
  repeat split; assumption.
Defined.

(** C10 as stated fails on a 2-D mesh: the stored operator has shape
    (nC, 2*nC), which is not square, and it is not skew-symmetric. *)
Lemma ref_dir_operator_2d_not_square :
  exists X,
    set_ref_dir (line_mesh 1 2) {| _ref_dir := None; _X := None |}
                (A2 2 [[1; 0]])
    = Ok {| _ref_dir := Some (A2 2 [[1; 0]]); _X := Some X |}
    /\ nrows X = 1%nat /\ ncols X = 2%nat
    /\ ~ (nrows X = (2 * 1)%nat /\ ncols X = (2 * 1)%nat)
    /\ coef (transpose X) 0 1 <> coef (neg X) 0 1.
Proof.
  eexists. split; [reflexivity|].
  cbn. repeat split; try lia; lra.
Qed.

(** ** Construction of the cross-reference term *)

Lemma dict_pop_cons_same {V : Type} (key : string) (v : V) (d : dict V) :
  dict_pop key ((key, v) :: d) = dict_pop key d.
Proof. unfold dict_pop; simpl. rewrite String.eqb_refl. reflexivity. Qed.

Lemma dict_pop_idem {V : Type} (key : string) (d : dict V) :
  dict_pop key (dict_pop key d) = dict_pop key d.
Proof.
  unfold dict_pop. induction d as [|[k v] d IH]; simpl; [reflexivity|].
  destruct (String.eqb k key) eqn:E; simpl; [exact IH|].
  rewrite E; simpl. f_equal. exact IH.
Qed.

Lemma dict_get_pop {V : Type} (key : string) (d : dict V) :
  dict_get key (dict_pop key d) = None.
Proof.
  unfold dict_pop. induction d as [|[k v] d IH]; simpl; [reflexivity|].
  destruct (String.eqb k key) eqn:E; simpl; [exact IH|].
  rewrite E. exact IH.
Qed.

Lemma delta_m_zero_baseline (m : list R) : _delta_m (PyFloat 0) m = Ok m.
Proof.
  simpl. f_equal. rewrite <- (map_id m) at 2.
  apply map_ext; intros; lra.
Qed.

(** C9: a constructed CrossReferenceRegularization has the reference model
    zero, so that the reference-shifted model is the model itself; a
    reference_model keyword argument changes nothing: the parent initialiser
    never sees it and the constructed instance is the same with or without
    it. *)
Theorem cross_reference_reference_model_is_zero
  (set_active_cells : RegularizationMesh -> list bool -> RegularizationMesh)
  (mesh : pyobject) (ref_dir : ndarray) (active_cells : option (list bool))
  (mp : option Mapping) (weights : option (dict ndarray))
  (kwargs : dict pyvalue) (self : CrossReferenceRegularization) :
  let init := CrossReferenceRegularization_init set_active_cells
                mesh ref_dir active_cells mp weights in
  init kwargs = Ok self ->
  reference_model self = PyFloat 0
  /\ (forall m, _delta_m (reference_model self) m = Ok m)
  /\ dict_get "reference_model" (dict_pop "reference_model" kwargs) = None
  /\ (forall v, init (("reference_model"%string, v) :: kwargs) = Ok self)
  /\ init (dict_pop "reference_model" kwargs) = Ok self.
Proof.
  intros init Hinit. unfold init in *. clear init.
  assert (Hz : reference_model self = PyFloat 0).
  { unfold CrossReferenceRegularization_init in Hinit.
    destruct (Smallness_init _ mesh active_cells mp weights _) as [s0|e];
      [|discriminate].
    cbn [bind] in Hinit.
    destruct (set_ref_dir _ _ ref_dir) as [st|e]; [|discriminate].
    cbn [bind] in Hinit. inversion Hinit. reflexivity. }
  split; [exact Hz|]. split.
  { intros m. rewrite Hz. apply delta_m_zero_baseline. }
  split; [apply dict_get_pop|]. split.
  - intros v. unfold CrossReferenceRegularization_init in *.
    rewrite dict_pop_cons_same. exact Hinit.
  - unfold CrossReferenceRegularization_init in *.
    rewrite dict_pop_idem. exact Hinit.
Qed.

Lemma cross_reference_reference_model_is_zero_witness :
  exists self,
    CrossReferenceRegularization_init (fun m _ => m)
      (PyBaseMesh (line_mesh 2 2)) (A1 [1; 0]) None None None
      [("reference_model"%string, PyArray (A1 [5; 5; 5; 5]))] = Ok self
    /\ reference_model self = PyFloat 0.
Proof.
  eexists. split; [reflexivity|].
  exact (proj1 (cross_reference_reference_model_is_zero
                  (fun m _ => m)
                  (PyBaseMesh (line_mesh 2 2)) (A1 [1; 0]) None None None
                  [("reference_model"%string, PyArray (A1 [5; 5; 5; 5]))]
                  _ eq_refl)).
Defined.

(** ** Construction of the composite *)

(** C8 (amended): a mesh argument of unrecognised type makes the constructor
    raise a TypeError with no term allocated; for every recognised mesh the
    constructor succeeds and holds, in order, the smallness term, the x
    smoothness term, the y smoothness term when the dimension exceeds one and
    the z smoothness term when it exceeds two, so that a 1-D mesh yields the
    smallness and x smoothness terms. *)
Theorem vector_amplitude_init_terms
  (set_active_cells : RegularizationMesh -> list bool -> RegularizationMesh)
  (mp : option Mapping) (active_cells : option (list bool))
  (log : list term) :
  VectorAmplitude_init set_active_cells PyOther mp active_cells log
  = (Raise TypeError, log)
  /\ forall (arg : pyobject) (m : RegularizationMesh),
       arg = PyBaseMesh m \/ arg = PyRegularizationMesh m ->
       let mesh := with_active_cells set_active_cells m active_cells in
       let terms :=
         [AmplitudeSmallness mesh mp;
          AmplitudeSmoothnessFirstOrder mesh x_dir mp]
         ++ (if (1 <? dim mesh)%nat
             then [AmplitudeSmoothnessFirstOrder mesh y_dir mp] else [])
         ++ (if (2 <? dim mesh)%nat
             then [AmplitudeSmoothnessFirstOrder mesh z_dir mp] else []) in
       VectorAmplitude_init set_active_cells arg mp active_cells log
       = (Ok {| _regularization_mesh := mesh; objfcts := terms |},
          log ++ terms).
Proof.
  split; [reflexivity|].
  intros arg m [-> | ->]; cbn [VectorAmplitude_init allocate];
    destruct active_cells as [a|];
    repeat match goal with
           | |- context [(?a <? ?b)%nat] => destruct (a <? b)%nat
           end;
    cbn; rewrite <- ?app_assoc; reflexivity.
Qed.

Lemma vector_amplitude_init_terms_witness :
  VectorAmplitude_init (fun m _ => m) (PyBaseMesh (line_mesh 4 2)) None None []
  = (Ok {| _regularization_mesh := line_mesh 4 2;
           objfcts :=
             [AmplitudeSmallness (line_mesh 4 2) None;
              AmplitudeSmoothnessFirstOrder (line_mesh 4 2) x_dir None;
              AmplitudeSmoothnessFirstOrder (line_mesh 4 2) y_dir None] |},
     [AmplitudeSmallness (line_mesh 4 2) None;
      AmplitudeSmoothnessFirstOrder (line_mesh 4 2) x_dir None;
      AmplitudeSmoothnessFirstOrder (line_mesh 4 2) y_dir None]).
Proof.
  exact (proj2 (vector_amplitude_init_terms (fun m _ => m) None None [])
               (PyBaseMesh (line_mesh 4 2)) (line_mesh 4 2)
               (or_introl eq_refl)).
Defined.

(** C8 as stated fails on a 1-D mesh: the constructor does not raise, it
    allocates the smallness and x smoothness terms and returns. *)
Lemma vector_amplitude_init_1d_mesh_accepted :
  VectorAmplitude_init (fun m _ => m) (PyBaseMesh (line_mesh 4 1)) None None []
  = (Ok {| _regularization_mesh := line_mesh 4 1;
           objfcts :=
             [AmplitudeSmallness (line_mesh 4 1) None;
              AmplitudeSmoothnessFirstOrder (line_mesh 4 1) x_dir None] |},
     [AmplitudeSmallness (line_mesh 4 1) None;
      AmplitudeSmoothnessFirstOrder (line_mesh 4 1) x_dir None])
  /\ (forall e log,
        VectorAmplitude_init (fun m _ => m) (PyBaseMesh (line_mesh 4 1))
          None None [] <> (Raise e, log)).
Proof. split; [reflexivity | intros e log; discriminate]. Qed.

(** ** Column-major reshaping *)

Lemma Rsum_shift (n : nat) (f : nat -> R) :
  Rsum (S n) f = f 0%nat + Rsum n (fun j => f (S j)).
Proof.
  induction n as [|n IH].
  - simpl. lra.
  - change (Rsum (S (S n)) f) with (Rsum (S n) f + f (S n)).
    rewrite IH. simpl. lra.
Qed.

Lemma fold_sum_Rsum {A : Type} (h : A -> R) (d : A) (l : list A) :
  fold_right Rplus 0 (map h l) = Rsum (length l) (fun j => h (nth j l d)).
Proof.
  induction l as [|a l IH]; [reflexivity|].
  cbn [map fold_right length]. rewrite Rsum_shift, IH. reflexivity.
Qed.

Lemma length_chunks (r c : nat) (v : list R) : length (chunks r c v) = c.
Proof. revert v; induction c as [|c IH]; intros v; simpl; auto. Qed.

Lemma nth_chunks (r c : nat) (v : list R) (i j : nat) :
  (i < r)%nat -> (j < c)%nat ->
  nth i (nth j (chunks r c v) []) 0 = nth (i + j * r) v 0.
Proof.
  intros Hi. revert v j; induction c as [|c IH]; intros v j Hj; [lia|].
  destruct j as [|j]; cbn [chunks nth].
  - rewrite nth_firstn.
    replace (i <? r)%nat with true by (symmetry; apply Nat.ltb_lt; lia).
    f_equal; lia.
  - rewrite IH by lia. rewrite nth_skipn. f_equal; lia.
Qed.

Lemma nth_map_seq {A : Type} (g : nat -> A) (d : A) (n i : nat) :
  (i < n)%nat -> nth i (map g (seq 0 n)) d = g i.
Proof.
  intros Hi. rewrite (nth_indep _ d (g 0%nat)) by
    (rewrite length_map, length_seq; exact Hi).
  rewrite map_nth, seq_nth by exact Hi. reflexivity.
Qed.

Lemma sum_sq_column_entries (r c : nat) (v : list R) (i : nat) :
  (i < r)%nat ->
  sum_sq (map (fun col => nth i col 0) (chunks r c v))
  = Rsum c (fun j => comp r v j i * comp r v j i).
Proof.
  intros Hi. unfold sum_sq. rewrite map_map.
  rewrite (fold_sum_Rsum (fun col => nth i col 0 * nth i col 0) []).
  rewrite length_chunks. apply Rsum_ext; intros j Hj.
  rewrite nth_chunks by assumption. reflexivity.
Qed.

Lemma norm_of_reshape (r c : nat) (a : ndarray) :
  size a = (r * c)%nat ->
  x <- reshape_F a r c ;; norm_axis1 x
  = Ok (map (row_norm r c (ravel_F a)) (seq 0 r)).
Proof.
  intros Hx. unfold reshape_F.
  rewrite Hx, Nat.eqb_refl. cbn [bind norm_axis1]. f_equal.
  unfold rows_of_columns. rewrite map_map.
  apply map_ext_in; intros i Hi. apply in_seq in Hi.
  unfold row_norm. f_equal. apply sum_sq_column_entries. lia.
Qed.

Lemma map_const_seq (c : R) (n : nat) :
  map (fun _ => c) (seq 0 n) = repeat c n.
Proof.
  generalize 0%nat. induction n as [|n IH]; intros a; simpl;
    [reflexivity | rewrite IH; reflexivity].
Qed.

(** ** The amplitude *)

Lemma amplitude_value
  (mesh : RegularizationMesh) (mp : Mapping) (ref_model : pyvalue)
  (m d : list R) (nc : nat) :
  _delta_m ref_model m = Ok d ->
  n_comp mesh mp = Ok nc ->
  length (map_apply mp d) = (nC mesh * nc)%nat ->
  amplitude mesh mp ref_model m
  = Ok (map (row_norm (nC mesh) nc (map_apply mp d)) (seq 0 (nC mesh))).
Proof.
  intros Hd Hnc Hlen. unfold amplitude. rewrite Hd, Hnc. cbn [bind].
  apply (norm_of_reshape (nC mesh) nc (A1 (map_apply mp d))). exact Hlen.
Qed.

(** C2: the amplitude of a model is the vector, of length nC, of the per-row
    Euclidean norms of the mapped, reference-shifted model reshaped
    column-major into an (nC, n_comp) matrix; for a 3-component model whose
    vector has Euclidean length one in every cell it is the all-ones
    vector. *)
Theorem amplitude_is_row_norm
  (mesh : RegularizationMesh) (mp : Mapping) (ref_model : pyvalue)
  (m d : list R) (nc : nat) :
  _delta_m ref_model m = Ok d ->
  n_comp mesh mp = Ok nc ->
  length (map_apply mp d) = (nC mesh * nc)%nat ->
  let x := map_apply mp d in
  amplitude mesh mp ref_model m = Ok (map (row_norm (nC mesh) nc x)
                                          (seq 0 (nC mesh)))
  /\ length (map (row_norm (nC mesh) nc x) (seq 0 (nC mesh))) = nC mesh
  /\ (nc = 3%nat ->
      (forall i, (i < nC mesh)%nat ->
         comp (nC mesh) x 0 i * comp (nC mesh) x 0 i
         + comp (nC mesh) x 1 i * comp (nC mesh) x 1 i
         + comp (nC mesh) x 2 i * comp (nC mesh) x 2 i = 1) ->
      amplitude mesh mp ref_model m = Ok (repeat 1 (nC mesh))).
Proof.
  intros Hd Hnc Hlen x.
  pose proof (amplitude_value mesh mp ref_model m d nc Hd Hnc Hlen) as Ha.
  fold x in Ha.
  split; [exact Ha|]. split.
  - rewrite length_map, length_seq. reflexivity.
  - intros -> Hunit. rewrite Ha. f_equal.
    rewrite <- (map_const_seq 1 (nC mesh)).
    apply map_ext_in; intros i Hi. apply in_seq in Hi.
    unfold row_norm. cbn [Rsum]. rewrite Rplus_0_l, Hunit by lia.
    apply sqrt_1.
Qed.

Lemma amplitude_is_row_norm_witness :
  amplitude (line_mesh 2 3) identity_map PyNone [1; 0; 0; 1; 0; 0]
  = Ok [1; 1].
Proof.
  apply (proj2 (proj2 (amplitude_is_row_norm
                         (line_mesh 2 3) identity_map PyNone
                         [1; 0; 0; 1; 0; 0] [1; 0; 0; 1; 0; 0] 3
                         eq_refl eq_refl eq_refl)) eq_refl).
  intros i Hi. destruct i as [|[|i]]; [unfold comp; simpl; lra.. | simpl in Hi; lia].
Defined.

(** ** Products and block-diagonal operators *)

Lemma length_matvec_raw (A : spmatrix) (v : list R) :
  length (matvec_raw A v) = nrows A.
Proof. unfold matvec_raw. rewrite length_map, length_seq. reflexivity. Qed.

Lemma nth_matvec_raw (A : spmatrix) (v : list R) (i : nat) :
  (i < nrows A)%nat ->
  nth i (matvec_raw A v) 0 = Rsum (ncols A) (fun j => coef A i j * nth j v 0).
Proof. intros Hi. unfold matvec_raw. rewrite nth_map_seq by exact Hi. reflexivity. Qed.

(** Multiplying by a product is multiplying twice. *)
Lemma matvec_raw_matmul (A B : spmatrix) (v : list R) :
  ncols A = nrows B ->
  matvec_raw (matmul_raw A B) v = matvec_raw A (matvec_raw B v).
Proof.
  intros Hd. unfold matvec_raw at 1 2. cbn [nrows ncols coef matmul_raw].
  apply map_ext_in; intros i Hi.
  transitivity
    (Rsum (ncols B)
       (fun l => Rsum (ncols A)
                   (fun k => coef A i k * (coef B k l * nth l v 0)))).
  - apply Rsum_ext; intros l Hl.
    rewrite Rmult_comm, <- Rsum_scal.
    apply Rsum_ext; intros k Hk. lra.
  - rewrite Rsum_swap. apply Rsum_ext; intros k Hk.
    rewrite nth_matvec_raw by lia.
    rewrite Rsum_scal. reflexivity.
Qed.

Lemma matvec_raw_diag_cat (A B : spmatrix) (x y : list R) :
  length x = ncols A ->
  matvec_raw (diag_cat A B) (x ++ y) = matvec_raw A x ++ matvec_raw B y.
Proof.
  intros Hx. unfold matvec_raw. cbn [nrows ncols coef diag_cat].
  rewrite seq_app, map_app. cbn [Nat.add]. f_equal.
  - apply map_ext_in; intros i Hi. apply in_seq in Hi.
    replace (i <? nrows A)%nat with true by (symmetry; apply Nat.ltb_lt; lia).
    rewrite Rsum_app.
    rewrite (Rsum_ext (ncols B) _ (fun _ => 0)), Rsum_zero, Rplus_0_r.
    + apply Rsum_ext; intros j Hj.
      replace (j <? ncols A)%nat with true
        by (symmetry; apply Nat.ltb_lt; lia).
      rewrite app_nth1 by lia. reflexivity.
    + intros j Hj.
      replace (ncols A + j <? ncols A)%nat with false
        by (symmetry; apply Nat.ltb_ge; lia).
      lra.
  - rewrite seq_offset, map_map.
    apply map_ext_in; intros i Hi.
    replace (nrows A + i <? nrows A)%nat with false
      by (symmetry; apply Nat.ltb_ge; lia).
    rewrite Rsum_app.
    rewrite (Rsum_ext (ncols A) _ (fun _ => 0)), Rsum_zero, Rplus_0_l.
    + apply Rsum_ext; intros j Hj.
      replace (ncols A + j <? ncols A)%nat with false
        by (symmetry; apply Nat.ltb_ge; lia).
      rewrite app_nth2 by lia.
      replace (nrows A + i - nrows A)%nat with i by lia.
      replace (ncols A + j - ncols A)%nat with j by lia.
      replace (ncols A + j - length x)%nat with j by lia.
      reflexivity.
    + intros j Hj.
      replace (j <? ncols A)%nat with true
        by (symmetry; apply Nat.ltb_lt; lia).
      lra.
Qed.

Lemma shape_block_diag_raw (M : spmatrix) (n : nat) :
  nrows (block_diag_raw M (repeat M n)) = (S n * nrows M)%nat
  /\ ncols (block_diag_raw M (repeat M n)) = (S n * ncols M)%nat.
Proof.
  induction n as [|n [IHr IHc]]; cbn [repeat block_diag_raw].
  - split; lia.
  - cbn [nrows ncols diag_cat]. rewrite IHr, IHc. split; lia.
Qed.

(** A block-diagonal operator acts block by block. *)
Lemma matvec_raw_block_diag (M : spmatrix) (col : list R)
  (cols : list (list R)) :
  Forall (fun c => length c = ncols M) (col :: cols) ->
  matvec_raw (block_diag_raw M (repeat M (length cols))) (concat (col :: cols))
  = concat (map (matvec_raw M) (col :: cols)).
Proof.
  revert col; induction cols as [|c2 cols IH]; intros col HF.
  - cbn. rewrite !app_nil_r. reflexivity.
  - inversion HF as [|? ? Hcol HF']; subst.
    cbn [length repeat block_diag_raw].
    change (concat (col :: c2 :: cols)) with (col ++ concat (c2 :: cols)).
    rewrite matvec_raw_diag_cat by exact Hcol.
    rewrite IH by exact HF'. reflexivity.
Qed.

(** ** The weighted residual, column by column *)

Lemma concat_chunks (r c : nat) (v : list R) :
  length v = (c * r)%nat -> concat (chunks r c v) = v.
Proof.
  revert v; induction c as [|c IH]; intros v Hv; cbn [chunks concat].
  - destruct v; [reflexivity | discriminate].
  - rewrite IH; [apply firstn_skipn|].
    rewrite length_skipn. lia.
Qed.

Lemma Forall_length_chunks (r c : nat) (v : list R) :
  length v = (c * r)%nat -> Forall (fun col => length col = r) (chunks r c v).
Proof.
  revert v; induction c as [|c IH]; intros v Hv; cbn [chunks]; constructor.
  - rewrite length_firstn. lia.
  - apply IH. rewrite length_skipn. lia.
Qed.

Lemma flat_map_seq_nth {A B : Type} (f : A -> list B) (d : A) (l : list A) :
  flat_map (fun j => f (nth j l d)) (seq 0 (length l)) = flat_map f l.
Proof.
  induction l as [|a l IH]; [reflexivity|].
  cbn [length seq flat_map nth]. f_equal.
  rewrite <- seq_shift, flat_map_concat_map, map_map, <- flat_map_concat_map.
  exact IH.
Qed.

Lemma nth_flat_map_blocks {A : Type} (f : nat -> list A) (L : nat) (d : A)
  (c a i j : nat) :
  (forall k, length (f k) = L) ->
  (i < L)%nat -> (j < c)%nat ->
  nth (i + j * L) (flat_map f (seq a c)) d = nth i (f (a + j)%nat) d.
Proof.
  intros HL Hi. revert a j; induction c as [|c IH]; intros a j Hj; [lia|].
  cbn [seq flat_map]. destruct j as [|j].
  - rewrite app_nth1 by (rewrite HL; lia).
    replace (a + 0)%nat with a by lia.
    replace (i + 0 * L)%nat with i by lia. reflexivity.
  - rewrite app_nth2 by (rewrite HL; lia).
    rewrite HL.
    replace (i + S j * L - L)%nat with (i + j * L)%nat by lia.
    rewrite IH by lia.
    replace (S a + j)%nat with (a + S j)%nat by lia. reflexivity.
Qed.

Lemma entry_rows_of_columns (r : nat) (cols : list (list R)) (t j : nat) :
  (t < r)%nat ->
  entry (rows_of_columns r cols) t j = nth t (nth j cols []) 0.
Proof.
  intros Ht. unfold entry, rows_of_columns.
  rewrite nth_map_seq by exact Ht.
  revert j; induction cols as [|c cols IH]; intros [|j]; cbn [map nth];
    auto; destruct t; reflexivity.
Qed.

Lemma ravel_matdense_columns (M : spmatrix) (r : nat) (cols : list (list R)) :
  ncols M = r ->
  a <- matdense M (A2 (length cols) (rows_of_columns r cols)) ;; Ok (ravel_F a)
  = Ok (concat (map (matvec_raw M) cols)).
Proof.
  intros Hr. cbn [matdense]. unfold rows_of_columns at 1.
  rewrite length_map, length_seq, Hr, Nat.eqb_refl. cbn [bind ravel_F].
  f_equal. rewrite <- flat_map_concat_map.
  rewrite <- (flat_map_seq_nth (matvec_raw M) []).
  apply flat_map_ext; intros j.
  rewrite map_map. unfold matvec_raw.
  apply map_ext_in; intros i Hi. apply in_seq in Hi.
  destruct (Nat.lt_ge_cases j (length cols)) as [Hj | Hj].
  - rewrite nth_map_seq by exact Hj. rewrite Hr.
    apply Rsum_ext; intros t Ht.
    rewrite entry_rows_of_columns by exact Ht. reflexivity.
  - rewrite nth_overflow by (rewrite length_map, length_seq; exact Hj).
    rewrite (nth_overflow cols) by exact Hj.
    rewrite Hr. rewrite (Rsum_ext r _ (fun _ => 0)); [symmetry; apply Rsum_zero|].
    intros t Ht. destruct t; cbn [nth]; lra.
Qed.

(** The matrix-free weighting equals the block-diagonal operator applied to
    the stacked vector. *)
Lemma weighted_columns_block_diag
  (mesh : RegularizationMesh) (mp : Mapping) (Wm : spmatrix) (u : list R)
  (n : nat) :
  n_comp mesh mp = Ok (S n) ->
  length u = (S n * ncols Wm)%nat ->
  weighted_columns mesh mp Wm u = Ok (matvec_raw (block_gram Wm n) u).
Proof.
  intros Hnc Hu. unfold weighted_columns, matmul, block_gram.
  cbn [ncols nrows transpose]. rewrite Nat.eqb_refl, Hnc. cbn [bind].
  fold (gram Wm). unfold reshape_F_auto, reshape_F. cbn [size ravel_F].
  replace (S n =? 0)%nat with false by reflexivity.
  rewrite Hu, (Nat.mul_comm (S n) (ncols Wm)).
  rewrite Nat.Div0.mod_mul, Nat.div_mul by lia.
  replace (0 =? 0)%nat with true by reflexivity.
  rewrite Nat.eqb_refl. cbn [bind].
  pose (cols := chunks (ncols Wm) (S n) u).
  fold cols.
  replace (S n) with (length cols) at 1 by apply length_chunks.
  rewrite ravel_matdense_columns by reflexivity.
  f_equal. unfold cols. cbn [chunks].
  rewrite <- matvec_raw_block_diag.
  - rewrite length_chunks.
    change (firstn (ncols Wm) u :: chunks (ncols Wm) n (skipn (ncols Wm) u))
      with (chunks (ncols Wm) (S n) u).
    rewrite concat_chunks by exact Hu. reflexivity.
  - apply (Forall_length_chunks (ncols Wm) (S n) u Hu).
Qed.

(** ** First and second derivative of the amplitude terms *)

Section Derivatives.

Variable mesh : RegularizationMesh.
Variable mp : Mapping.
Variable ref_model : pyvalue.
Variable W : result spmatrix.
Variable f_m_deriv : list R -> result spmatrix.

Variable m : list R.
Variable J Wm : spmatrix.
Variable n : nat.

Hypothesis HJ : f_m_deriv m = Ok J.
Hypothesis HW : W = Ok Wm.
Hypothesis Hnc : n_comp mesh mp = Ok (S n).
Hypothesis Hrows : nrows J = (S n * ncols Wm)%nat.

Lemma deriv2_full_matrix :
  deriv2 mesh mp W f_m_deriv m None
  = Ok (RetMatrix (matmul_raw (transpose J) (matmul_raw (block_gram Wm n) J))).
Proof.
  unfold deriv2. rewrite HJ, HW, Hnc. cbn [bind].
  unfold matmul at 1. cbn [ncols nrows transpose].
  rewrite Nat.eqb_refl. cbn [bind repeat block_diag].
  fold (gram Wm). fold (block_gram Wm n).
  destruct (shape_block_diag_raw (gram Wm) n) as [Hr Hc]. fold (block_gram Wm n) in Hr, Hc.
  unfold matmul.
  repeat (cbn [bind ncols nrows transpose matmul_raw gram];
          rewrite ?Hc, ?Hr, ?Hrows, ?Nat.eqb_refl).
  reflexivity.
Qed.

Lemma weighted_product (x : list R) :
  length x = ncols J ->
  u <- matvec J x ;;
  f <- weighted_columns mesh mp Wm u ;;
  matvec (transpose J) f
  = Ok (matvec_raw (transpose J) (matvec_raw (block_gram Wm n) (matvec_raw J x))).
Proof.
  intros Hx. unfold matvec at 1. rewrite Hx, Nat.eqb_refl. cbn [bind].
  rewrite (weighted_columns_block_diag mesh mp Wm _ n Hnc)
    by (rewrite length_matvec_raw; exact Hrows).
  cbn [bind]. fold (gram Wm). fold (block_gram Wm n).
  unfold matvec. rewrite length_matvec_raw.
  destruct (shape_block_diag_raw (gram Wm) n) as [Hr Hc]. fold (block_gram Wm n) in Hr, Hc.
  rewrite Hr. cbn [ncols nrows transpose matmul_raw gram].
  rewrite Hrows, Nat.eqb_refl. reflexivity.
Qed.

Lemma full_matrix_times_vector (x : list R) :
  length x = ncols J ->
  matvec (matmul_raw (transpose J) (matmul_raw (block_gram Wm n) J)) x
  = Ok (matvec_raw (transpose J) (matvec_raw (block_gram Wm n) (matvec_raw J x))).
Proof.
  intros Hx. unfold matvec. cbn [ncols matmul_raw].
  rewrite Hx, Nat.eqb_refl. f_equal.
  destruct (shape_block_diag_raw (gram Wm) n) as [Hr Hc]. fold (block_gram Wm n) in Hr, Hc.
  rewrite matvec_raw_matmul.
  - rewrite matvec_raw_matmul; [reflexivity|].
    rewrite Hc. cbn [ncols nrows transpose matmul_raw gram]. lia.
  - cbn [ncols nrows transpose matmul_raw]. rewrite Hr.
    cbn [ncols nrows transpose matmul_raw gram]. lia.
Qed.

End Derivatives.

Lemma matvec_raw_zero (A : spmatrix) (v : list R) :
  (forall j, nth j v 0 = 0) -> matvec_raw A v = repeat 0 (nrows A).
Proof.
  intros Hv. unfold matvec_raw. rewrite <- map_const_seq.
  apply map_ext; intros i.
  rewrite (Rsum_ext _ _ (fun _ => 0)); [apply Rsum_zero|].
  intros j _. rewrite Hv. lra.
Qed.

Lemma nth_repeat_zero (k j : nat) : nth j (repeat 0 k) 0 = 0.
Proof.
  revert j; induction k as [|k IH]; intros [|j]; cbn [repeat nth]; auto.
Qed.

Lemma Rsum_nonneg (n : nat) (f : nat -> R) :
  (forall j, (j < n)%nat -> 0 <= f j) -> 0 <= Rsum n f.
Proof.
  induction n as [|n IH]; intros H; simpl; [lra|].
  assert (0 <= Rsum n f) by (apply IH; intros; apply H; lia).
  assert (0 <= f n) by (apply H; lia). lra.
Qed.

Lemma Rsum_zero_terms (n : nat) (f : nat -> R) :
  (forall j, (j < n)%nat -> 0 <= f j) ->
  Rsum n f = 0 -> forall j, (j < n)%nat -> f j = 0.
Proof.
  induction n as [|n IH]; intros Hpos Hs j Hj; [lia|].
  simpl in Hs.
  assert (H1 : 0 <= Rsum n f) by (apply Rsum_nonneg; intros; apply Hpos; lia).
  assert (H2 : 0 <= f n) by (apply Hpos; lia).
  destruct (Nat.eq_dec j n) as [->|Hne]; [lra|].
  apply IH; [intros; apply Hpos; lia | lra | lia].
Qed.

(** A row of Euclidean norm zero has every component zero. *)
Lemma row_norm_zero (n nc : nat) (x : list R) (i : nat) :
  row_norm n nc x i = 0 ->
  forall j, (j < nc)%nat -> comp n x j i = 0.
Proof.
  unfold row_norm. intros Hs j Hj.
  assert (Hpos : forall k, (k < nc)%nat -> 0 <= comp n x k i * comp n x k i)
    by (intros; nra).
  apply sqrt_eq_0 in Hs; [|apply Rsum_nonneg; exact Hpos].
  pose proof (Rsum_zero_terms nc _ Hpos Hs j Hj) as Hz. nra.
Qed.

Lemma matvec_raw_block_diag_chunks (M : spmatrix) (n : nat) (u : list R) :
  length u = (S n * ncols M)%nat ->
  matvec_raw (block_diag_raw M (repeat M n)) u
  = concat (map (matvec_raw M) (chunks (ncols M) (S n) u)).
Proof.
  intros Hu. cbn [chunks].
  rewrite <- matvec_raw_block_diag.
  - rewrite length_chunks.
    change (firstn (ncols M) u :: chunks (ncols M) n (skipn (ncols M) u))
      with (chunks (ncols M) (S n) u).
    rewrite concat_chunks by exact Hu. reflexivity.
  - apply (Forall_length_chunks (ncols M) (S n) u Hu).
Qed.

(** Entry [i] of block [j] of a block-diagonal product. *)
Lemma nth_matvec_raw_block_diag (M : spmatrix) (n : nat) (u : list R)
  (i j : nat) :
  nrows M = ncols M ->
  length u = (S n * ncols M)%nat ->
  (i < ncols M)%nat -> (j < S n)%nat ->
  nth (i + j * ncols M) (matvec_raw (block_diag_raw M (repeat M n)) u) 0
  = Rsum (ncols M) (fun t => coef M i t * nth (t + j * ncols M) u 0).
Proof.
  intros Hsq Hu Hi Hj.
  rewrite matvec_raw_block_diag_chunks by exact Hu.
  rewrite <- flat_map_concat_map.
  rewrite <- (flat_map_seq_nth (matvec_raw M) []).
  rewrite length_chunks.
  rewrite (nth_flat_map_blocks _ (ncols M)); try assumption.
  - cbn [Nat.add]. rewrite nth_matvec_raw by lia.
    apply Rsum_ext; intros t Ht.
    rewrite nth_chunks by assumption. reflexivity.
  - intros k. rewrite length_matvec_raw. exact Hsq.
Qed.

(** The square of a diagonal weighting matrix is diagonal. *)
Lemma coef_square_diags (w : list R) (i t : nat) :
  (i < length w)%nat ->
  coef (matmul_raw (transpose (diags w)) (diags w)) i t
  = if (i =? t)%nat then nth i w 0 * nth i w 0 else 0.
Proof.
  intros Hi. cbn [coef matmul_raw transpose diags nrows ncols].
  rewrite (Rsum_ext _ _
             (fun s => (if (i =? s)%nat then nth i w 0 else 0)
                       * (if (s =? t)%nat then nth s w 0 else 0))).
  - rewrite (Rsum_delta (length w) i (nth i w 0)
               (fun s => if (s =? t)%nat then nth s w 0 else 0)).
    replace (i <? length w)%nat with true by (symmetry; apply Nat.ltb_lt; lia).
    destruct (i =? t)%nat; lra.
  - intros s _. destruct (Nat.eqb_spec s i) as [->|Hne].
    + rewrite Nat.eqb_refl. reflexivity.
    + replace (i =? s)%nat with false
        by (symmetry; apply Nat.eqb_neq; congruence).
      reflexivity.
Qed.

(** C3: for every model and every vector of matching length, the matrix
    returned by deriv2 without a vector, multiplied by the vector, equals
    what deriv2 returns for that vector, for every positive number of
    components and whatever the weighting matrix and kernel derivative of
    the term (smallness or smoothness) are. *)
Theorem deriv2_matrix_free_agrees
  (mesh : RegularizationMesh) (mp : Mapping)
  (W : result spmatrix) (f_m_deriv : list R -> result spmatrix)
  (m v : list R) (J Wm : spmatrix) (nc : nat) :
  f_m_deriv m = Ok J ->
  W = Ok Wm ->
  n_comp mesh mp = Ok nc ->
  (0 < nc)%nat ->
  nrows J = (nc * ncols Wm)%nat ->
  length v = ncols J ->
  exists H g,
    deriv2 mesh mp W f_m_deriv m None = Ok (RetMatrix H)
    /\ deriv2 mesh mp W f_m_deriv m (Some v) = Ok (RetArray g)
    /\ matvec H v = Ok g
    /\ length g = length v.
Proof.
  intros HJ HW Hnc Hpos Hrows Hv.
  destruct nc as [|n]; [lia|].
  eexists. eexists. split; [|split; [|split]].
  - apply (deriv2_full_matrix mesh mp W f_m_deriv m J Wm n HJ HW Hnc Hrows).
  - unfold deriv2. rewrite HJ, HW. cbn [bind].
    pose proof (weighted_product mesh mp J Wm n Hnc Hrows v Hv) as Hp.
    destruct (matvec J v) as [u|e]; [|discriminate]. cbn [bind] in *.
    destruct (weighted_columns mesh mp Wm u) as [f|e]; [|discriminate].
    cbn [bind] in *. rewrite Hp. reflexivity.
  - apply full_matrix_times_vector; assumption.
  - rewrite length_matvec_raw. cbn [nrows transpose]. symmetry. exact Hv.
Qed.

(** C4: whatever the amplitudes of the cells are, zero included, deriv
    returns a vector of the length of the model: the kernel derivative
    transposed applied to the block-diagonally weighted kernel derivative
    applied to the shifted model, sums of products with no division.  Where
    the shifted model vanishes altogether the result is the zero vector, and
    with a diagonal weighting matrix a cell whose row of the kernel
    sensitivity has Euclidean norm zero (the amplitude of the cell, for a
    linear mapping) has a zero weighted residual in every component: it
    contributes nothing to the result. *)
Theorem deriv_defined_for_zero_amplitude
  (mesh : RegularizationMesh) (mp : Mapping) (ref_model : pyvalue)
  (W : result spmatrix) (f_m_deriv : list R -> result spmatrix)
  (m d : list R) (J Wm : spmatrix) (nc : nat) :
  _delta_m ref_model m = Ok d ->
  f_m_deriv m = Ok J ->
  W = Ok Wm ->
  n_comp mesh mp = Ok nc ->
  (0 < nc)%nat ->
  nrows J = (nc * ncols Wm)%nat ->
  length d = ncols J ->
  exists g H,
    deriv mesh mp ref_model W f_m_deriv m = Ok g
    /\ length g = length d
    /\ deriv2 mesh mp W f_m_deriv m None = Ok (RetMatrix H)
    /\ matvec H d = Ok g
    /\ ((forall j, nth j d 0 = 0) -> g = repeat 0 (length d))
    /\ (forall (w : list R) (i : nat),
          Wm = diags w ->
          (i < length w)%nat ->
          row_norm (length w) nc (matvec_raw J d) i = 0 ->
          exists f,
            weighted_columns mesh mp Wm (matvec_raw J d) = Ok f
            /\ matvec (transpose J) f = Ok g
            /\ forall j, (j < nc)%nat -> nth (i + j * length w) f 0 = 0).
Proof.
  intros Hd HJ HW Hnc Hpos Hrows Hlen.
  destruct nc as [|n]; [lia|].
  eexists. eexists. split; [|split; [|split; [|split; [|split]]]].
  - unfold deriv. rewrite Hd, HJ, HW. cbn [bind].
    apply (weighted_product mesh mp J Wm n Hnc Hrows d Hlen).
  - rewrite length_matvec_raw. cbn [nrows transpose]. symmetry. exact Hlen.
  - apply (deriv2_full_matrix mesh mp W f_m_deriv m J Wm n HJ HW Hnc Hrows).
  - apply full_matrix_times_vector; assumption.
  - intros Hz.
    rewrite (matvec_raw_zero J d Hz).
    rewrite (matvec_raw_zero _ (repeat 0 (nrows J)))
      by (intros j; apply nth_repeat_zero).
    rewrite matvec_raw_zero by (intros j; apply nth_repeat_zero).
    cbn [nrows transpose]. rewrite Hlen. reflexivity.
  - intros w i -> Hi Hzero.
    cbn [ncols diags] in Hrows.
    assert (Hu : length (matvec_raw J d) = (S n * ncols (diags w))%nat)
      by (rewrite length_matvec_raw; exact Hrows).
    rewrite (weighted_columns_block_diag mesh mp (diags w) _ n Hnc Hu).
    eexists. split; [reflexivity|]. split.
    + unfold matvec. rewrite length_matvec_raw.
      destruct (shape_block_diag_raw (gram (diags w)) n) as [Hr _].
      fold (block_gram (diags w) n) in Hr.
      rewrite Hr. cbn [ncols nrows transpose matmul_raw diags gram].
      rewrite Hrows, Nat.eqb_refl. reflexivity.
    + intros j Hj.
      pose proof (nth_matvec_raw_block_diag
                    (gram (diags w)) n
                    (matvec_raw J d) i j eq_refl Hu Hi Hj) as Hn.
      fold (block_gram (diags w) n) in Hn.
      cbn [ncols matmul_raw diags gram] in Hn. rewrite Hn.
      rewrite (Rsum_ext _ _ (fun _ => 0)); [apply Rsum_zero|].
      intros t Ht. unfold gram. rewrite coef_square_diags by exact Hi.
      destruct (Nat.eqb_spec i t) as [<-|Hne]; [|lra].
      pose proof (row_norm_zero _ _ _ _ Hzero j Hj) as Hc.
      unfold comp in Hc. rewrite Hc. lra.
Qed.

Lemma deriv2_matrix_free_agrees_witness :
  let self := amplitude_instance (line_mesh 2 2) identity_map x_dir
                [("volume"%string, A1 [1; 1])] in
  exists H g,
    AmplitudeSmoothnessFirstOrder_deriv2 self [1; 2; 3; 4] None
    = Ok (RetMatrix H)
    /\ AmplitudeSmoothnessFirstOrder_deriv2 self [1; 2; 3; 4]
         (Some [1; 0; 0; 1]) = Ok (RetArray g)
    /\ matvec H [1; 0; 0; 1] = Ok g
    /\ length g = 4%nat.
Proof.
  intros self.
  exact (deriv2_matrix_free_agrees
           (line_mesh 2 2) identity_map
           (W_value (AmplitudeSmoothnessFirstOrder_W self))
           (AmplitudeSmoothnessFirstOrder_f_m_deriv self)
           [1; 2; 3; 4] [1; 0; 0; 1] _ _ 2
           eq_refl eq_refl eq_refl (Nat.lt_0_succ 1) eq_refl eq_refl).
Defined.

(** A model whose first cell has amplitude zero and whose second cell has
    amplitude five. *)
Example amplitude_with_a_zero_cell :
  amplitude (line_mesh 2 2) identity_map PyNone [0; 3; 0; 4] = Ok [0; 5].
Proof.
  rewrite (amplitude_value (line_mesh 2 2) identity_map PyNone
             [0; 3; 0; 4] [0; 3; 0; 4] 2 eq_refl eq_refl eq_refl).
  cbn [line_mesh nC seq map]. unfold row_norm, comp.
  cbn [Rsum nth Nat.add Nat.mul identity_map map_apply].
  f_equal. f_equal; [|f_equal].
  - replace (0 + 0 * 0 + 0 * 0) with 0 by lra. apply sqrt_0.
  - replace (0 + 3 * 3 + 4 * 4) with (5 * 5) by lra.
    apply sqrt_square; lra.
Qed.

Lemma zero_cell_of_example :
  row_norm 2 2 (matvec_raw (diags [1; 1; 1; 1]) [0; 3; 0; 4]) 0 = 0.
Proof.
  unfold row_norm, comp, matvec_raw.
  cbn [Rsum nth seq map diags nrows ncols coef length Nat.eqb Nat.add
       Nat.mul].
  match goal with
  | |- sqrt ?e = 0 => replace e with 0 by lra
  end.
  apply sqrt_0.
Qed.

Lemma deriv_defined_for_zero_amplitude_witness :
  let self := amplitude_instance (line_mesh 2 2) identity_map x_dir
                [("volume"%string, A1 [1; 1])] in
  exists g H f,
    AmplitudeSmallness_f_m self [0; 3; 0; 4] = Ok [0; 5]
    /\ AmplitudeSmallness_deriv self [0; 3; 0; 4] = Ok g
    /\ length g = 4%nat
    /\ AmplitudeSmallness_deriv2 self [0; 3; 0; 4] None = Ok (RetMatrix H)
    /\ matvec H [0; 3; 0; 4] = Ok g
    /\ weighted_columns (line_mesh 2 2) identity_map
         (diags [sqrt (1 * 1); sqrt (1 * 1)])
         (matvec_raw (diags [1; 1; 1; 1]) [0; 3; 0; 4]) = Ok f
    /\ nth 0 f 0 = 0 /\ nth 2 f 0 = 0.
Proof.
  intros self.
  destruct (deriv_defined_for_zero_amplitude
              (line_mesh 2 2) identity_map PyNone
              (W_value (AmplitudeSmallness_W self))
              (AmplitudeSmallness_f_m_deriv self)
              [0; 3; 0; 4] [0; 3; 0; 4]
              (diags [1; 1; 1; 1]) (diags [sqrt (1 * 1); sqrt (1 * 1)]) 2
              eq_refl eq_refl eq_refl eq_refl (Nat.lt_0_succ 1)
              eq_refl eq_refl)
    as (g & H & Hg & Hl & HH & Hm & _ & Hcell).
  destruct (Hcell [sqrt (1 * 1); sqrt (1 * 1)] 0%nat eq_refl
                  (Nat.lt_0_succ 1) zero_cell_of_example)
    as (f & Hf & _ & Hzero).
  exists g, H, f. split; [exact amplitude_with_a_zero_cell|].
  repeat split; try assumption.
  - exact (Hzero 0%nat (Nat.lt_0_succ 1)).
  - exact (Hzero 1%nat (Nat.lt_succ_diag_r 1)).
Defined.

(** ** The weighting matrix of the cross-reference term *)

Lemma mul_vec_nth (n : nat) (a b : list R) :
  length a = n -> length b = n ->
  mul_vec a b = map (fun i => nth i a 0 * nth i b 0) (seq 0 n).
Proof.
  revert a b; induction n as [|n IH]; intros [|x a] [|y b] Ha Hb;
    try discriminate; [reflexivity|].
  cbn [mul_vec combine map seq fst snd nth]. f_equal.
  rewrite <- seq_shift, map_map.
  apply (IH a b); simpl in *; lia.
Qed.

Lemma comp_ravel_F (c : nat) (rows : list (list R)) (i j : nat) :
  (i < length rows)%nat -> (j < c)%nat ->
  comp (length rows) (ravel_F (A2 c rows)) j i = entry rows i j.
Proof.
  intros Hi Hj. unfold comp. cbn [ravel_F].
  rewrite (nth_flat_map_blocks _ (length rows)); try assumption.
  - cbn [Nat.add]. apply nth_column.
  - intros k. apply length_map.
Qed.

Lemma shape_eqb_neq (s t : list nat) : s <> t -> shape_eqb s t = false.
Proof.
  intros H. destruct (shape_eqb s t) eqn:E; [|reflexivity].
  apply shape_eqb_eq in E. contradiction.
Qed.

(** One registered array multiplies each cell's weight by its
    [cell_weight]. *)
Lemma cross_reference_weights_step (mesh : RegularizationMesh)
  (w : list R) (value : ndarray) :
  length w = nC mesh ->
  acceptable_shape (nC mesh) (dim mesh) value ->
  cross_reference_weights mesh (A1 w) value
  = Ok (A1 (map (fun i => nth i w 0
                          * cell_weight (nC mesh) (dim mesh) value i)
                (seq 0 (nC mesh)))).
Proof.
  intros Hw Hacc. unfold cross_reference_weights.
  destruct (shape_eqb (shape value) [nC mesh]) eqn:E1.
  - apply shape_eqb_eq in E1.
    destruct value as [v | c rows]; [|discriminate].
    inversion E1 as [Hv]. cbn [imul].
    rewrite Hv, Hw, Nat.eqb_refl. f_equal. f_equal.
    rewrite (mul_vec_nth (nC mesh)) by assumption.
    apply map_ext; intros i. cbn [cell_weight].
    rewrite Hv, Nat.eqb_refl. reflexivity.
  - assert (Hsize : size value = (nC mesh * dim mesh)%nat).
    { destruct Hacc as [H | [H | H]].
      - rewrite H, shape_eqb_refl in E1. discriminate.
      - destruct value as [v | c rows]; inversion H. cbn [size]. lia.
      - destruct value as [v | c rows]; inversion H. cbn [size]. lia. }
    rewrite Hsize, (Nat.mul_comm (dim mesh)), Nat.eqb_refl.
    pose proof (norm_of_reshape (nC mesh) (dim mesh) value Hsize) as Hn.
    destruct (reshape_F value (nC mesh) (dim mesh)) as [a|e];
      [|discriminate].
    cbn [bind] in *. rewrite Hn. cbn [bind imul].
    rewrite length_map, length_seq, Hw, Nat.eqb_refl. f_equal. f_equal.
    rewrite (mul_vec_nth (nC mesh))
      by (rewrite ?length_map, ?length_seq; auto).
    apply map_ext_in; intros i Hi. apply in_seq in Hi.
    rewrite (nth_map_seq _ 0) by lia. f_equal.
    unfold row_norm.
    destruct value as [v | c rows]; cbn [cell_weight ravel_F].
    + replace (length v =? nC mesh)%nat with false; [reflexivity|].
      symmetry. apply Nat.eqb_neq. intros Hv.
      cbn [shape] in E1. rewrite Hv, shape_eqb_refl in E1. discriminate.
    + destruct Hacc as [H | [H | H]]; inversion H as [[Hr Hc]].
      f_equal. apply Rsum_ext; intros j Hj.
      rewrite <- (comp_ravel_F (dim mesh) rows i j) by lia. reflexivity.
Qed.

Lemma list_as_map_nth (n : nat) (w : list R) :
  length w = n -> map (fun i => nth i w 0) (seq 0 n) = w.
Proof.
  revert n; induction w as [|x w IH]; intros [|n] Hw; try discriminate;
    [reflexivity|].
  cbn [seq map nth]. f_equal.
  rewrite <- seq_shift, map_map. apply IH. simpl in Hw; lia.
Qed.

Lemma cross_reference_weights_loop (mesh : RegularizationMesh)
  (values : list ndarray) (w : list R) :
  length w = nC mesh ->
  Forall (acceptable_shape (nC mesh) (dim mesh)) values ->
  for_each (cross_reference_weights mesh) values (A1 w)
  = Ok (A1 (map (fun i => nth i w 0
                          * combined_weight (nC mesh) (dim mesh) values i)
                (seq 0 (nC mesh)))).
Proof.
  revert w; induction values as [|value values IH]; intros w Hw HF.
  - cbn [for_each combined_weight fold_right]. f_equal. f_equal.
    rewrite <- (list_as_map_nth (nC mesh) w Hw) at 1.
    apply map_ext; intros; lra.
  - inversion HF as [|? ? Hv HF']; subst.
    cbn [for_each]. rewrite cross_reference_weights_step by assumption.
    cbn [bind]. rewrite IH; [|rewrite length_map, length_seq; reflexivity|exact HF'].
    f_equal. f_equal. apply map_ext_in; intros i Hi. apply in_seq in Hi.
    rewrite (nth_map_seq _ 0) by lia.
    unfold combined_weight. cbn [fold_right]. ring.
Qed.

Lemma nth_repeat_in (c : R) (n i : nat) :
  (i < n)%nat -> nth i (repeat c n) 0 = c.
Proof.
  revert i; induction n as [|n IH]; intros [|i] Hi; cbn [repeat nth];
    try lia; auto with arith.
Qed.

(** The diagonal that the property hands to [sp.diags]. *)
Lemma cross_reference_diag_spec (mesh : RegularizationMesh)
  (registered : dict ndarray) :
  Forall (acceptable_shape (nC mesh) (dim mesh)) (dict_values registered) ->
  let w := map (fun i => sqrt (combined_weight (nC mesh) (dim mesh)
                                 (dict_values registered) i))
               (seq 0 (nC mesh)) in
  cross_reference_diag mesh registered
  = Ok (if (dim mesh =? 2)%nat then w else w ++ w ++ w).
Proof.
  intros HF w. unfold cross_reference_diag.
  rewrite cross_reference_weights_loop;
    [|apply repeat_length|exact HF].
  cbn [bind sqrt_array]. rewrite map_map.
  replace (map _ (seq 0 (nC mesh))) with w; [reflexivity|].
  unfold w. apply map_ext_in; intros i Hi. apply in_seq in Hi.
  rewrite nth_repeat_in by lia. f_equal. lra.
Qed.

(** C6: with no matrix cached, the weighting matrix of a
    CrossReferenceRegularization instance whose registered weights have the
    acceptable shapes (nC,), (dim*nC,) or (nC, dim) is the diagonal matrix of
    the square roots of the per-cell products of all registered weights, a
    per-component weight entering by its Euclidean norm across the
    components of the cell; the nC-long diagonal is used as it is on a 2-D
    mesh and three times in a row on a 3-D mesh; the matrix is cached. *)
Theorem cross_reference_W_combines_weights
  (self : CrossReferenceRegularization) :
  let mesh := regularization_mesh self in
  let registered := dict_values (_weights self) in
  let w := map (fun i => sqrt (combined_weight (nC mesh) (dim mesh)
                                 registered i))
               (seq 0 (nC mesh)) in
  _W self = None ->
  Forall (acceptable_shape (nC mesh) (dim mesh)) registered ->
  exists M,
    CrossReferenceRegularization_W self = Ok (M, set_W self (Some M))
    /\ (dim mesh = 2%nat -> M = diags w /\ nrows M = nC mesh)
    /\ (dim mesh = 3%nat ->
        M = diags (w ++ w ++ w) /\ nrows M = (3 * nC mesh)%nat).
Proof.
  intros mesh registered w Hcache HF.
  unfold CrossReferenceRegularization_W. rewrite Hcache.
  pose proof (cross_reference_diag_spec mesh (_weights self) HF) as Hs.
  cbv zeta in Hs. fold registered in Hs. fold w in Hs. unfold mesh in Hs at 1.
  rewrite Hs. cbn [bind]. fold mesh.
  eexists. split; [reflexivity|].
  assert (Hlw : length w = nC mesh)
    by (unfold w; rewrite length_map, length_seq; reflexivity).
  split; intros Hd; rewrite Hd; cbn [Nat.eqb]; (split; [reflexivity|]);
    cbn [nrows diags]; rewrite ?length_app, Hlw; lia.
Qed.

Lemma cross_reference_W_combines_weights_witness :
  exists M,
    CrossReferenceRegularization_W
      (cross_reference_instance (line_mesh 1 2)
         [("volume"%string, A1 [4]); ("w"%string, A2 2 [[3; 4]])])
    = Ok (M, set_W (cross_reference_instance (line_mesh 1 2)
                      [("volume"%string, A1 [4]); ("w"%string, A2 2 [[3; 4]])])
                   (Some M))
    /\ nrows M = 1%nat.
Proof.
  assert (HF : Forall (acceptable_shape 1 2) [A1 [4]; A2 2 [[3; 4]]]).
  { constructor; [left; reflexivity|].
    constructor; [right; right; reflexivity|]. constructor. }
  destruct (cross_reference_W_combines_weights
              (cross_reference_instance (line_mesh 1 2)
                 [("volume"%string, A1 [4]); ("w"%string, A2 2 [[3; 4]])])
              eq_refl HF)
    as (M & HW & H2 & _).
  exists M. split; [exact HW|]. exact (proj2 (H2 eq_refl)).
Defined.

Lemma sqrt_sqrt_2_neq_1 : sqrt (sqrt 2) <> 1.
Proof.
  intros H.
  assert (H1 : sqrt 2 = 1).
  { rewrite <- (sqrt_sqrt (sqrt 2)) by apply sqrt_pos. rewrite H. lra. }
  assert (H2 : 2 = 1).
  { rewrite <- (sqrt_sqrt 2) by lra. rewrite H1. lra. }
  lra.
Qed.

(** C5 fails on the code: on a 2-D mesh of one cell with the default volume
    weight one, registering an all-ones weight of shape (nC,) and an
    all-ones weight of shape (nC, dim) changes the weighting matrix of the
    cross-reference term from diag(1) to diag(sqrt(sqrt 2)). *)
Theorem unit_weights_change_cross_reference_W :
  let default_weights := [("volume"%string, A1 [1])] in
  let unit_weights :=
    [("volume"%string, A1 [1]);
     ("ones_cell"%string, A1 [1]);
     ("ones_component"%string, A2 2 [[1; 1]])] in
  exists M0 M1 s0 s1,
    CrossReferenceRegularization_W
      (cross_reference_instance (line_mesh 1 2) default_weights)
    = Ok (M0, s0)
    /\ CrossReferenceRegularization_W
         (cross_reference_instance (line_mesh 1 2) unit_weights)
       = Ok (M1, s1)
    /\ coef M0 0 0 = 1
    /\ coef M1 0 0 = sqrt (sqrt 2)
    /\ coef M1 0 0 <> coef M0 0 0.
Proof.
  intros default_weights unit_weights.
  unfold CrossReferenceRegularization_W.
  cbn [_W cross_reference_instance regularization_mesh _weights].
  rewrite !cross_reference_diag_spec.
  - cbn [bind]. do 4 eexists. split; [reflexivity|]. split; [reflexivity|].
    cbn [coef diags Nat.eqb line_mesh nC dim seq map nth app].
    unfold combined_weight, default_weights, unit_weights.
    cbn [dict_values map snd fold_right cell_weight length Nat.eqb nth
         Rsum entry].
    assert (E0 : sqrt (1 * 1) = 1) by (rewrite Rmult_1_r; apply sqrt_1).
    assert (E1 : sqrt (1 * (1 * (sqrt (0 + 1 * 1 + 1 * 1) * 1)))
                 = sqrt (sqrt 2)).
    { f_equal. replace (0 + 1 * 1 + 1 * 1) with 2 by lra. lra. }
    rewrite E0, E1. repeat split. apply sqrt_sqrt_2_neq_1.
  - repeat (constructor;
            [first [left; reflexivity | right; right; reflexivity]|]).
    constructor.
  - repeat (constructor;
            [first [left; reflexivity | right; right; reflexivity]|]).
    constructor.
Qed.

(** ** The weighting matrix of the smoothness term *)

Lemma for_each_app {S A : Type} (body : S -> A -> result S)
  (l1 l2 : list A) (s : S) :
  for_each body (l1 ++ l2) s
  = s' <- for_each body l1 s ;; for_each body l2 s'.
Proof.
  revert s; induction l1 as [|a l1 IH]; intros s; cbn [app for_each bind];
    [reflexivity|].
  destruct (body s a) as [s'|e]; cbn [bind]; [apply IH | reflexivity].
Qed.

(** Once the accumulated weights are a rank-one array (as after the volume
    weight), a registered array of rank two with nC rows stops the loop with
    a ValueError: it is averaged as it is, and the product cannot be stored
    in the rank-one accumulator. *)
Lemma smoothness_step_rank_two_raises (self : AmplitudeTerm) (v : list R)
  (c : nat) (rows : list (list R)) :
  length rows = nC (term_mesh self) ->
  amplitude_smoothness_weights self (AccArray (A1 v)) (A2 c rows)
  = Raise ValueError.
Proof.
  intros Hr. unfold amplitude_smoothness_weights.
  cbn [shape0]. rewrite Hr, Nat.eqb_refl. cbn [matdense].
  destruct (length rows =? _)%nat; reflexivity.
Qed.

Lemma smoothness_W_raises_after_rank_one (self : AmplitudeTerm)
  (before after : dict ndarray) (key : string) (v : list R)
  (c : nat) (rows : list (list R)) :
  term_W self = None ->
  term_weights self = before ++ (key, A2 c rows) :: after ->
  length rows = nC (term_mesh self) ->
  for_each (amplitude_smoothness_weights self) (dict_values before)
           (AccFloat 1) = Ok (AccArray (A1 v)) ->
  AmplitudeSmoothnessFirstOrder_W self = Raise ValueError.
Proof.
  intros Hcache Hw Hr Hbefore. unfold AmplitudeSmoothnessFirstOrder_W.
  rewrite Hcache, Hw. unfold dict_values in *.
  rewrite map_app, for_each_app, Hbefore. cbn [bind map snd for_each].
  rewrite smoothness_step_rank_two_raises by exact Hr. reflexivity.
Qed.

(** C7 fails on the code for a per-component weight of the accepted shape
    (nC, n_comp): on a mesh of two cells and three faces with two
    components, after the default volume weight, the all-ones weight of
    shape (2, 2) is not reduced by its norm across components; it is
    averaged to faces as a rank-two array and the in-place product with the
    rank-one weights raises ValueError, so no weighting matrix is built. *)
Theorem smoothness_W_rejects_cell_component_weight :
  AmplitudeSmoothnessFirstOrder_W
    (amplitude_instance (line_mesh 2 2) identity_map x_dir
       [("volume"%string, A1 [1; 1]);
        ("w"%string, A2 2 [[1; 1]; [1; 1]])])
  = Raise ValueError
  /\ In [2%nat; 2%nat]
        (match smoothness_weights_shapes
                 (amplitude_instance (line_mesh 2 2) identity_map x_dir [])
         with Ok l => l | Raise _ => [] end).
Proof.
  split.
  - reflexivity.
  - cbn. auto 10.
Qed.

(** The same weight registered flat, of shape (n_comp * nC,), is reduced by
    its norm across components and averaged to the three faces. *)
Example smoothness_W_accepts_flat_component_weight :
  exists M s,
    AmplitudeSmoothnessFirstOrder_W
      (amplitude_instance (line_mesh 2 2) identity_map x_dir
         [("volume"%string, A1 [1; 1]);
          ("w"%string, A1 [1; 1; 1; 1])])
    = Ok (M, s)
    /\ nrows M = 3%nat.
Proof. do 2 eexists. split; reflexivity. Qed.

(** ** The weighting matrix of the smallness term *)

(** The smallness term reduces a flat per-component weight by its norm, so
    that an all-ones weight of shape (n_comp * nC,) scales the diagonal. *)
Example smallness_W_unit_component_weight :
  exists M s,
    AmplitudeSmallness_W
      (amplitude_instance (line_mesh 1 2) identity_map x_dir
         [("volume"%string, A1 [1]);
          ("ones_component"%string, A1 [1; 1])])
    = Ok (M, s)
    /\ coef M 0 0 = sqrt (sqrt 2).
Proof.
  do 2 eexists. split; [reflexivity|].
  cbn. unfold sum_sq. cbn.
  f_equal.
  replace (1 * 1 + (1 * 1 + 0)) with 2 by lra. lra.
Qed.

(** A weight of the accepted shape (nC, n_comp) matches neither test of the
    smallness term and leaves the diagonal as it was. *)
Example smallness_W_ignores_cell_component_weight :
  exists M s,
    AmplitudeSmallness_W
      (amplitude_instance (line_mesh 1 2) identity_map x_dir
         [("volume"%string, A1 [1]);
          ("w"%string, A2 2 [[7; 7]])])
    = Ok (M, s)
    /\ coef M 0 0 = 1.
Proof.
  do 2 eexists. split; [reflexivity|].
  cbn. rewrite Rmult_1_r. apply sqrt_1.
Qed.

(* ================================================================== *)
(** * Further properties of the code *)
(* ================================================================== *)

(** ** Outcomes of the ref_dir setter *)

Lemma build_X_outcome (n d : nat) (rows : list (list R)) :
  length rows = n ->
  build_X n (A2 d rows)
  = match d with
    | 0%nat | 1%nat => Raise IndexError
    | 2%nat => Ok (cross_operator2 rows)
    | 3%nat => Ok (cross_operator3 rows)
    | _ => Raise UnboundLocalError
    end.
Proof.
  intros Hn. destruct d as [|[|[|[|d]]]]; try reflexivity.
  - rewrite build_X_2d. apply bmat_X_blocks2.
  - rewrite build_X_3d, <- Hn. apply bmat_X_blocks3.
Qed.

Lemma normalize_ref_dir_outcome (mesh : RegularizationMesh) (value : ndarray) :
  (shape value <> [nC mesh; dim mesh] -> shape value <> [dim mesh] ->
   normalize_ref_dir mesh value = Raise ValueError)
  /\ (shape value = [nC mesh; dim mesh] \/ shape value = [dim mesh] ->
      exists rows,
        normalize_ref_dir mesh value = Ok (A2 (dim mesh) rows)
        /\ length rows = nC mesh
        /\ (forall v, value = A1 v -> rows = repeat v (nC mesh))
        /\ (forall c r, value = A2 c r -> rows = r)).
Proof.
  unfold normalize_ref_dir. split.
  - intros H1 H2. rewrite !shape_eqb_neq by assumption. reflexivity.
  - intros [H | H].
    + rewrite H, shape_eqb_refl.
      destruct value as [v | c r]; inversion H; subst.
      exists r. repeat split; auto; intros; congruence.
    + destruct value as [v | c r]; inversion H as [Hv].
      rewrite shape_eqb_neq by (cbn; congruence).
      cbn [shape]. rewrite Hv, shape_eqb_refl.
      exists (repeat v (nC mesh)). unfold tile_rows. rewrite Hv.
      repeat split; auto.
      * apply repeat_length.
      * intros v' E; inversion E; reflexivity.
      * intros; discriminate.
Qed.

(** X1: the setter raises ValueError exactly for a value whose shape is
    neither (nC, dim) nor (dim,); for a value of one of these shapes it
    raises IndexError on a mesh of dimension below two, succeeds on meshes
    of dimension two and three, and raises UnboundLocalError beyond. *)
Theorem set_ref_dir_outcome
  (mesh : RegularizationMesh) (self : RefDirState) (value : ndarray) :
  (set_ref_dir mesh self value = Raise ValueError
   <-> shape value <> [nC mesh; dim mesh] /\ shape value <> [dim mesh])
  /\ (shape value = [nC mesh; dim mesh] \/ shape value = [dim mesh] ->
      ((dim mesh < 2)%nat -> set_ref_dir mesh self value = Raise IndexError)
      /\ (dim mesh = 2%nat \/ dim mesh = 3%nat ->
          exists self', set_ref_dir mesh self value = Ok self')
      /\ ((3 < dim mesh)%nat ->
          set_ref_dir mesh self value = Raise UnboundLocalError)).
Proof.
  destruct (normalize_ref_dir_outcome mesh value) as [Hbad Hgood].
  assert (Hcase : forall rows,
             normalize_ref_dir mesh value = Ok (A2 (dim mesh) rows) ->
             length rows = nC mesh ->
             set_ref_dir mesh self value
             = match dim mesh with
               | 0%nat | 1%nat => Raise IndexError
               | 2%nat =>
                   Ok {| _ref_dir := Some (A2 2 rows);
                         _X := Some (cross_operator2 rows) |}
               | 3%nat =>
                   Ok {| _ref_dir := Some (A2 3 rows);
                         _X := Some (cross_operator3 rows) |}
               | _ => Raise UnboundLocalError
               end).
  { intros rows Hn Hlen. unfold set_ref_dir. rewrite Hn. cbn [bind].
    rewrite (build_X_outcome (nC mesh) (dim mesh) rows Hlen).
    destruct (dim mesh) as [|[|[|[|d]]]]; reflexivity. }
  split; [split|].
  - intros Hraise.
    destruct (list_eq_dec Nat.eq_dec (shape value) [nC mesh; dim mesh])
      as [E1 | N1];
      [|destruct (list_eq_dec Nat.eq_dec (shape value) [dim mesh])
          as [E2 | N2]; [|split; assumption]].
    + destruct (Hgood (or_introl E1)) as (rows & Hn & Hlen & _).
      rewrite (Hcase rows Hn Hlen) in Hraise.
      destruct (dim mesh) as [|[|[|[|d]]]]; discriminate.
    + destruct (Hgood (or_intror E2)) as (rows & Hn & Hlen & _).
      rewrite (Hcase rows Hn Hlen) in Hraise.
      destruct (dim mesh) as [|[|[|[|d]]]]; discriminate.
  - intros [N1 N2]. unfold set_ref_dir. rewrite (Hbad N1 N2). reflexivity.
  - intros Hshape. destruct (Hgood Hshape) as (rows & Hn & Hlen & _).
    rewrite (Hcase rows Hn Hlen).
    split; [|split].
    + intros Hd. destruct (dim mesh) as [|[|d]]; [reflexivity..|lia].
    + intros [Hd | Hd]; rewrite Hd; eexists; reflexivity.
    + intros Hd. destruct (dim mesh) as [|[|[|[|d]]]]; try lia. reflexivity.
Qed.

Lemma set_ref_dir_outcome_witness :
  set_ref_dir (line_mesh 2 1) {| _ref_dir := None; _X := None |} (A1 [1])
  = Raise IndexError
  /\ set_ref_dir (line_mesh 2 2) {| _ref_dir := None; _X := None |}
       (A1 [1; 0; 0]) = Raise ValueError.
Proof.
  split.
  - exact (proj1 (proj2 (set_ref_dir_outcome
                           (line_mesh 2 1) {| _ref_dir := None; _X := None |}
                           (A1 [1])) (or_intror eq_refl))
                 (Nat.lt_succ_diag_r 1)).
  - apply (proj1 (set_ref_dir_outcome
                    (line_mesh 2 2) {| _ref_dir := None; _X := None |}
                    (A1 [1; 0; 0]))).
    split; discriminate.
Defined.

(** What an accepted assignment leaves in the instance. *)
Lemma accepted_operator (mesh : RegularizationMesh) (self self' : RefDirState)
  (value : ndarray) :
  set_ref_dir mesh self value = Ok self' ->
  exists rows,
    length rows = nC mesh
    /\ (forall v, value = A1 v -> rows = repeat v (nC mesh))
    /\ (forall c r, value = A2 c r -> rows = r)
    /\ ((dim mesh = 2%nat
         /\ self' = {| _ref_dir := Some (A2 2 rows);
                       _X := Some (cross_operator2 rows) |})
        \/ (dim mesh = 3%nat
            /\ self' = {| _ref_dir := Some (A2 3 rows);
                          _X := Some (cross_operator3 rows) |})).
Proof.
  intros Hset.
  destruct (normalize_ref_dir_outcome mesh value) as [Hbad Hgood].
  assert (Hshape : shape value = [nC mesh; dim mesh]
                   \/ shape value = [dim mesh]).
  { destruct (list_eq_dec Nat.eq_dec (shape value) [nC mesh; dim mesh])
      as [E1 | N1]; [left; exact E1|].
    destruct (list_eq_dec Nat.eq_dec (shape value) [dim mesh])
      as [E2 | N2]; [right; exact E2|].
    unfold set_ref_dir in Hset. rewrite (Hbad N1 N2) in Hset. discriminate. }
  destruct (Hgood Hshape) as (rows & Hn & Hlen & Hv & Hr).
  exists rows. split; [exact Hlen|]. split; [exact Hv|]. split; [exact Hr|].
  unfold set_ref_dir in Hset. rewrite Hn in Hset. cbn [bind] in Hset.
  rewrite (build_X_outcome (nC mesh) (dim mesh) rows Hlen) in Hset.
  destruct (dim mesh) as [|[|[|[|d]]]]; try discriminate;
    inversion Hset; [left | right]; split; reflexivity.
Qed.

Lemma shape_cross_operator2 (rows : list (list R)) :
  nrows (cross_operator2 rows) = length rows
  /\ ncols (cross_operator2 rows) = (length rows * 2)%nat.
Proof.
  unfold cross_operator2. cbn [nrows ncols hcat diags neg].
  rewrite !length_col_of. split; lia.
Qed.

Lemma shape_cross_operator3 (rows : list (list R)) :
  nrows (cross_operator3 rows) = (3 * length rows)%nat
  /\ ncols (cross_operator3 rows) = (length rows * 3)%nat.
Proof.
  unfold cross_operator3. cbn [nrows ncols vcat hcat diags neg csr_zero].
  rewrite !length_col_of. split; lia.
Qed.

(** X2: after an accepted assignment the stored reference direction has the
    shape (nC, dim), a single direction being repeated for every cell;
    _nC_residual is nC * dim, which is the number of columns of the stored
    operator, and the kernel f_m is defined exactly for the models whose
    mapped length is that number, its value having as many entries as the
    operator has rows: nC on a 2-D mesh and 3 * nC on a 3-D mesh. *)
Theorem ref_dir_stored_shape_and_residual
  (mesh : RegularizationMesh) (self self' : RefDirState) (value : ndarray) :
  set_ref_dir mesh self value = Ok self' ->
  exists rd X,
    _ref_dir self' = Some rd /\ _X self' = Some X
    /\ shape rd = [nC mesh; dim mesh]
    /\ (forall v, value = A1 v -> rd = A2 (dim mesh) (repeat v (nC mesh)))
    /\ _nC_residual self' = Some (nC mesh * dim mesh)%nat
    /\ ncols X = (nC mesh * dim mesh)%nat
    /\ nrows X = (if (dim mesh =? 2)%nat then nC mesh else 3 * nC mesh)%nat
    /\ (forall mp m,
          length (map_apply mp m) = (nC mesh * dim mesh)%nat
          <-> exists y, CrossReferenceRegularization_f_m X mp m = Ok y
                        /\ length y = nrows X).
Proof.
  intros Hset.
  destruct (accepted_operator mesh self self' value Hset)
    as (rows & Hlen & Hv & _ & [[Hd ->] | [Hd ->]]); rewrite Hd;
    eexists; eexists; (split; [reflexivity|]); (split; [reflexivity|]);
    cbn [shape _nC_residual _ref_dir fold_right Nat.eqb].
  - destruct (shape_cross_operator2 rows) as [Hr Hc].
    rewrite Hr, Hc, Hlen.
    split; [reflexivity|]. split; [intros v E; rewrite (Hv v E); reflexivity|].
    split; [f_equal; lia|]. split; [reflexivity|]. split; [reflexivity|].
    intros mp m. unfold CrossReferenceRegularization_f_m, matvec.
    rewrite Hc, Hlen. split.
    + intros Hm. rewrite Hm, Nat.eqb_refl. eexists. split; [reflexivity|].
      rewrite length_matvec_raw, Hr. exact Hlen.
    + intros (y & Hy & _).
      destruct (Nat.eqb_spec (length (map_apply mp m)) (nC mesh * 2));
        [assumption | discriminate].
  - destruct (shape_cross_operator3 rows) as [Hr Hc].
    rewrite Hr, Hc, Hlen.
    split; [reflexivity|]. split; [intros v E; rewrite (Hv v E); reflexivity|].
    split; [f_equal; lia|]. split; [reflexivity|]. split; [reflexivity|].
    intros mp m. unfold CrossReferenceRegularization_f_m, matvec.
    rewrite Hc, Hlen. split.
    + intros Hm. rewrite Hm, Nat.eqb_refl. eexists. split; [reflexivity|].
      rewrite length_matvec_raw, Hr, Hlen. reflexivity.
    + intros (y & Hy & _).
      destruct (Nat.eqb_spec (length (map_apply mp m)) (nC mesh * 3));
        [assumption | discriminate].
Qed.

Lemma ref_dir_stored_shape_and_residual_witness :
  exists self' rd,
    set_ref_dir (line_mesh 2 3) {| _ref_dir := None; _X := None |}
                (A1 [0; 0; 1]) = Ok self'
    /\ _ref_dir self' = Some rd
    /\ shape rd = [2%nat; 3%nat]
    /\ _nC_residual self' = Some 6%nat.
Proof.
  eexists.
  destruct (ref_dir_stored_shape_and_residual
              (line_mesh 2 3) {| _ref_dir := None; _X := None |} _
              (A1 [0; 0; 1]) eq_refl)
    as (rd & X & Hrd & _ & Hs & _ & Hres & _).
  exists rd. repeat split; assumption.
Defined.

(** ** The kernel of the cross-reference term *)

Lemma nth_lincomb (a b : R) (x y : list R) (j : nat) :
  length x = length y ->
  nth j (lincomb a b x y) 0 = a * nth j x 0 + b * nth j y 0.
Proof.
  unfold lincomb. revert y j; induction x as [|x0 x IH]; intros [|y0 y] j H;
    try discriminate.
  - destruct j; cbn; lra.
  - destruct j as [|j]; cbn [combine map nth fst snd]; [reflexivity|].
    apply IH. simpl in H; lia.
Qed.

Lemma lincomb_map_seq (a b : R) (f g : nat -> R) (n : nat) :
  lincomb a b (map f (seq 0 n)) (map g (seq 0 n))
  = map (fun i => a * f i + b * g i) (seq 0 n).
Proof.
  unfold lincomb. generalize 0%nat.
  induction n as [|n IH]; intros s; cbn [seq map combine fst snd];
    [reflexivity | rewrite IH; reflexivity].
Qed.

Lemma matvec_raw_lincomb (A : spmatrix) (a b : R) (x y : list R) :
  length x = length y ->
  matvec_raw A (lincomb a b x y)
  = lincomb a b (matvec_raw A x) (matvec_raw A y).
Proof.
  intros H. unfold matvec_raw at 2 3. rewrite lincomb_map_seq.
  unfold matvec_raw. apply map_ext; intros i.
  rewrite <- !Rsum_scal, <- Rsum_plus.
  apply Rsum_ext; intros j _. rewrite nth_lincomb by exact H. ring.
Qed.

Lemma matvec_Ok_inv (A : spmatrix) (v y : list R) :
  matvec A v = Ok y -> length v = ncols A /\ y = matvec_raw A v.
Proof.
  unfold matvec. destruct (Nat.eqb_spec (length v) (ncols A)) as [E|N];
    [|discriminate].
  intros H; inversion H. split; [exact E | reflexivity].
Qed.

(** X3: the kernel of the cross-reference term is linear in the model
    whenever the mapping is: the kernel of a combination a*m1 + b*m2 is the
    same combination of the kernels of m1 and m2. *)
Theorem cross_reference_kernel_linear
  (X : spmatrix) (mp : Mapping) (a b : R) (m1 m2 y1 y2 : list R) :
  map_apply mp (lincomb a b m1 m2)
  = lincomb a b (map_apply mp m1) (map_apply mp m2) ->
  CrossReferenceRegularization_f_m X mp m1 = Ok y1 ->
  CrossReferenceRegularization_f_m X mp m2 = Ok y2 ->
  CrossReferenceRegularization_f_m X mp (lincomb a b m1 m2)
  = Ok (lincomb a b y1 y2).
Proof.
  unfold CrossReferenceRegularization_f_m. intros Hlin H1 H2.
  apply matvec_Ok_inv in H1, H2. destruct H1 as [L1 ->], H2 as [L2 ->].
  rewrite Hlin. unfold matvec.
  assert (Hl : length (lincomb a b (map_apply mp m1) (map_apply mp m2))
               = ncols X).
  { unfold lincomb. rewrite length_map, length_combine, L1, L2.
    apply Nat.min_id. }
  rewrite Hl, Nat.eqb_refl. f_equal.
  apply matvec_raw_lincomb. congruence.
Qed.

Lemma cross_reference_kernel_linear_witness :
  CrossReferenceRegularization_f_m (cross_operator2 [[1; 0]; [0; 1]])
    identity_map (lincomb 2 3 [1; 0; 0; 1] [0; 1; 1; 0])
  = Ok (lincomb 2 3
          (matvec_raw (cross_operator2 [[1; 0]; [0; 1]]) [1; 0; 0; 1])
          (matvec_raw (cross_operator2 [[1; 0]; [0; 1]]) [0; 1; 1; 0])).
Proof.
  exact (cross_reference_kernel_linear
           (cross_operator2 [[1; 0]; [0; 1]]) identity_map 2 3
           [1; 0; 0; 1] [0; 1; 1; 0] _ _ eq_refl eq_refl eq_refl).
Defined.








(** X6: for a linear mapping, given by a matrix J, the kernel derivative of
    the cross-reference term is the product of the stored operator with J,
    the same for every model, and applied to a vector it gives the kernel of
    that vector; when the number of rows of J is not the number of columns
    of the operator, the kernel and its derivative both raise ValueError. *)
Theorem cross_reference_kernel_derivative
  (X J : spmatrix) (mp : Mapping) :
  (forall x, map_deriv mp x = J) ->
  (forall x, map_apply mp x = matvec_raw J x) ->
  (ncols X = nrows J ->
   exists D,
     (forall m, CrossReferenceRegularization_f_m_deriv X mp m = Ok D)
     /\ nrows D = nrows X /\ ncols D = ncols J
     /\ forall v, length v = ncols J ->
          exists y, CrossReferenceRegularization_f_m X mp v = Ok y
                    /\ matvec D v = Ok y)
  /\ (ncols X <> nrows J ->
      forall m,
        CrossReferenceRegularization_f_m_deriv X mp m = Raise ValueError
        /\ CrossReferenceRegularization_f_m X mp m = Raise ValueError).
Proof.
  intros Hderiv Happly.
  unfold CrossReferenceRegularization_f_m_deriv,
    CrossReferenceRegularization_f_m, matmul, matvec.
  split.
  - intros Hd. exists (matmul_raw X J).
    split; [intros m; rewrite Hderiv, Hd, Nat.eqb_refl; reflexivity|].
    split; [reflexivity|]. split; [reflexivity|].
    intros v Hv. rewrite Happly, length_matvec_raw, Hd, Nat.eqb_refl.
    eexists. split; [reflexivity|].
    cbn [ncols matmul_raw]. rewrite Hv, Nat.eqb_refl. f_equal.
    apply matvec_raw_matmul. exact Hd.
  - intros Hd m. rewrite Hderiv, Happly, length_matvec_raw.
    replace (ncols X =? nrows J)%nat with false
      by (symmetry; apply Nat.eqb_neq; exact Hd).
    replace (nrows J =? ncols X)%nat with false
      by (symmetry; apply Nat.eqb_neq; congruence).
    split; reflexivity.
Qed.

Lemma cross_reference_kernel_derivative_witness :
  exists D y,
    CrossReferenceRegularization_f_m_deriv
      (cross_operator2 [[1; 0]]) (linear_map (diags [2; 3])) [7; 7] = Ok D
    /\ CrossReferenceRegularization_f_m
         (cross_operator2 [[1; 0]]) (linear_map (diags [2; 3])) [1; 1] = Ok y
    /\ matvec D [1; 1] = Ok y.
Proof.
  destruct (proj1 (cross_reference_kernel_derivative
                     (cross_operator2 [[1; 0]]) (diags [2; 3])
                     (linear_map (diags [2; 3]))
                     (fun _ => eq_refl) (fun _ => eq_refl)) eq_refl)
    as (D & HD & _ & _ & Hv).
  destruct (Hv [1; 1] eq_refl) as (y & Hy & Hm).
  exists D, y. split; [apply HD|]. split; assumption.
Defined.

(** ** The weighting matrices, whatever is registered *)

Lemma length_mul_vec (a b : list R) :
  length a = length b -> length (mul_vec a b) = length a.
Proof.
  intros H. unfold mul_vec. rewrite length_map, length_combine, <- H.
  apply Nat.min_id.
Qed.

Lemma imul_same_length (w v : list R) :
  length v = length w -> imul (A1 w) (A1 v) = Ok (A1 (mul_vec w v)).
Proof. intros H. cbn [imul]. rewrite H, Nat.eqb_refl. reflexivity. Qed.







Lemma amplitude_smallness_weights_step (self : AmplitudeTerm) (nc : nat)
  (w : list R) (value : ndarray) :
  let n := nC (term_mesh self) in
  n_comp (term_mesh self) (term_mapping self) = Ok nc ->
  length w = n ->
  amplitude_smallness_weights self (A1 w) value
  = Ok (A1 (map (fun i => nth i w 0 * smallness_cell_weight n nc value i)
                (seq 0 n))).
Proof.
  intros n Hnc Hw. unfold amplitude_smallness_weights. fold n.
  destruct (shape_eqb (shape value) [n]) eqn:E1.
  - apply shape_eqb_eq in E1.
    destruct value as [v | c rows]; [|discriminate].
    inversion E1 as [Hv].
    rewrite imul_same_length by congruence. f_equal. f_equal.
    rewrite (mul_vec_nth (length v)) by congruence.
    apply map_ext; intros i. cbn [smallness_cell_weight].
    rewrite Nat.eqb_refl. reflexivity.
  - rewrite Hnc. cbn [bind].
    destruct (shape_eqb (shape value) [(nc * n)%nat]) eqn:E2.
    + apply shape_eqb_eq in E2.
      destruct value as [v | c rows]; [|discriminate].
      inversion E2 as [Hv].
      assert (Hsize : size (A1 v) = (n * nc)%nat) by (cbn [size]; lia).
      pose proof (norm_of_reshape n nc (A1 v) Hsize) as Hn.
      destruct (reshape_F (A1 v) n nc) as [a|e]; [|discriminate].
      cbn [bind] in *. rewrite Hn. cbn [bind].
      rewrite imul_same_length
        by (rewrite length_map, length_seq; congruence).
      f_equal. f_equal.
      rewrite (mul_vec_nth n) by (rewrite ?length_map, ?length_seq; auto).
      apply map_ext_in; intros i Hi. apply in_seq in Hi.
      rewrite (nth_map_seq _ 0) by lia. f_equal.
      cbn [smallness_cell_weight ravel_F].
      replace (length v =? n)%nat with false.
      * rewrite Hv, Nat.eqb_refl. reflexivity.
      * symmetry. apply Nat.eqb_neq. intros Hl.
        cbn [shape] in E1. rewrite Hl, shape_eqb_refl in E1. discriminate.
    + f_equal. f_equal.
      rewrite <- (list_as_map_nth n w Hw) at 1.
      apply map_ext; intros i.
      replace (smallness_cell_weight n nc value i) with 1; [lra|].
      destruct value as [v | c rows]; cbn [smallness_cell_weight];
        [|reflexivity].
      cbn [shape] in E1, E2.
      replace (length v =? n)%nat with false.
      * replace (length v =? nc * n)%nat with false; [reflexivity|].
        symmetry. apply Nat.eqb_neq. intros Hl.
        rewrite Hl, shape_eqb_refl in E2. discriminate.
      * symmetry. apply Nat.eqb_neq. intros Hl.
        rewrite Hl, shape_eqb_refl in E1. discriminate.
Qed.

Lemma amplitude_smallness_weights_loop (self : AmplitudeTerm) (nc : nat)
  (values : list ndarray) (w : list R) :
  let n := nC (term_mesh self) in
  n_comp (term_mesh self) (term_mapping self) = Ok nc ->
  length w = n ->
  for_each (amplitude_smallness_weights self) values (A1 w)
  = Ok (A1 (map (fun i => nth i w 0
                          * smallness_combined_weight n nc values i)
                (seq 0 n))).
Proof.
  intros n Hnc. revert w; induction values as [|value values IH];
    intros w Hw.
  - cbn [for_each smallness_combined_weight fold_right]. f_equal. f_equal.
    rewrite <- (list_as_map_nth n w Hw) at 1.
    apply map_ext; intros; lra.
  - cbn [for_each].
    rewrite (amplitude_smallness_weights_step self nc w value Hnc Hw).
    cbn [bind]. fold n.
    rewrite IH by (rewrite length_map, length_seq; reflexivity).
    f_equal. f_equal. apply map_ext_in; intros i Hi. apply in_seq in Hi.
    rewrite (nth_map_seq _ 0) by lia.
    unfold smallness_combined_weight. cbn [fold_right]. ring.
Qed.

(** X8: with nothing cached and n_comp defined, the weighting matrix of the
    smallness term is defined whatever arrays are registered: it is the
    diagonal matrix of order nC of the square roots of the per-cell
    products, to which an array of shape (nC,) contributes its entries, a
    flat array of shape (n_comp * nC,) the Euclidean norm across the
    components of each cell, and any other array, the accepted shape
    (nC, n_comp) included, nothing. *)
Theorem amplitude_smallness_W_combines_weights
  (self : AmplitudeTerm) (nc : nat) :
  let n := nC (term_mesh self) in
  let w := map (fun i => sqrt (smallness_combined_weight n nc
                                 (dict_values (term_weights self)) i))
               (seq 0 n) in
  term_W self = None ->
  n_comp (term_mesh self) (term_mapping self) = Ok nc ->
  AmplitudeSmallness_W self = Ok (diags w, set_term_W self (Some (diags w)))
  /\ nrows (diags w) = n /\ ncols (diags w) = n.
Proof.
  intros n w Hcache Hnc. unfold AmplitudeSmallness_W. rewrite Hcache.
  rewrite (amplitude_smallness_weights_loop self nc _ _ Hnc
             (repeat_length 1 n)).
  cbn [bind sqrt_array]. rewrite map_map.
  replace (map _ (seq 0 (nC (term_mesh self)))) with w.
  - split; [reflexivity|]. cbn [nrows ncols diags].
    unfold w. rewrite length_map, length_seq. repeat split.
  - unfold w. apply map_ext_in; intros i Hi. apply in_seq in Hi.
    rewrite nth_repeat_in by (unfold n; lia). f_equal. fold n. lra.
Qed.

Lemma amplitude_smallness_W_combines_weights_witness :
  let self := amplitude_instance (line_mesh 1 2) identity_map x_dir
                [("volume"%string, A1 [4]);
                 ("w"%string, A1 [3; 4]);
                 ("ignored"%string, A2 2 [[7; 7]])] in
  exists M, AmplitudeSmallness_W self = Ok (M, set_term_W self (Some M))
            /\ nrows M = 1%nat.
Proof.
  intros self.
  destruct (amplitude_smallness_W_combines_weights self 2 eq_refl eq_refl)
    as (HW & Hn & _).
  eexists. split; [exact HW | exact Hn].
Defined.

(** ** The weighting matrix of the smoothness term on the shapes it
    combines *)

Lemma reshape_F_auto_exact (a : ndarray) (r nc : nat) :
  (0 < nc)%nat -> size a = (r * nc)%nat ->
  reshape_F_auto a nc = reshape_F a r nc.
Proof.
  intros Hpos Hsize. unfold reshape_F_auto.
  replace (nc =? 0)%nat with false by (symmetry; apply Nat.eqb_neq; lia).
  rewrite Hsize, Nat.Div0.mod_mul, Nat.div_mul by lia. reflexivity.
Qed.

Lemma reduce_by_norm (a : ndarray) (r nc : nat) :
  (0 < nc)%nat -> size a = (r * nc)%nat ->
  x <- reshape_F_auto a nc ;; norm_axis1 x
  = Ok (cell_norms r nc (ravel_F a)).
Proof.
  intros Hpos Hsize. rewrite (reshape_F_auto_exact a r nc Hpos Hsize).
  apply norm_of_reshape. exact Hsize.
Qed.

Lemma length_cell_norms (n nc : nat) (v : list R) :
  length (cell_norms n nc v) = n.
Proof. unfold cell_norms. rewrite length_map, length_seq. reflexivity. Qed.

Section SmoothnessWeights.

Variable self : AmplitudeTerm.
Variable nc : nat.

Let A := aveCC2F (term_mesh self) (orientation_ self).
Let n := nC (term_mesh self).
Let f := nrows A.

Hypothesis Hnc : n_comp (term_mesh self) (term_mapping self) = Ok nc.
Hypothesis Hpos : (0 < nc)%nat.
Hypothesis Hcols : ncols A = n.

(** What the loop multiplies the accumulated weights by. *)
Lemma smoothness_projected_value (value : ndarray) :
  face_acceptable n f nc value ->
  forall weights,
    amplitude_smoothness_weights self weights value
    = accum_imul weights (A1 (face_weight A n f nc value))
    /\ length (face_weight A n f nc value) = f.
Proof.
  intros Hacc weights. unfold amplitude_smoothness_weights.
  fold A. fold n. fold f. rewrite Hnc.
  destruct value as [v | c rows]; cbn [shape0 shape face_weight].
  - destruct (Nat.eqb_spec (length v) n) as [E1 | N1].
    { cbn [matdense]. unfold matvec. rewrite E1, Hcols, Nat.eqb_refl.
      cbn [bind]. split; [reflexivity | first [reflexivity | apply length_matvec_raw]]. }
    destruct (Nat.eqb_spec (length v) f) as [E2 | N2].
    { rewrite E2, shape_eqb_refl. cbn [negb bind].
      split; reflexivity. }
    rewrite shape_eqb_neq by congruence. cbn [negb bind].
    destruct (Nat.eqb_spec (length v) (nc * n)) as [E3 | N3].
    { pose proof (reduce_by_norm (A1 v) n nc Hpos) as Hred.
      cbn [size ravel_F] in Hred. specialize (Hred ltac:(lia)).
      destruct (reshape_F_auto (A1 v) nc) as [a|e]; [|discriminate].
      cbn [bind] in *. rewrite Hred. cbn [bind].
      rewrite length_cell_norms, Nat.eqb_refl. cbn [matdense].
      unfold matvec. rewrite length_cell_norms, Hcols, Nat.eqb_refl.
      cbn [bind]. split; [reflexivity | first [reflexivity | apply length_matvec_raw]]. }
    assert (E4 : length v = (nc * f)%nat)
      by (destruct Hacc as [H | [H | [H | H]]]; congruence).
    pose proof (reduce_by_norm (A1 v) f nc Hpos) as Hred.
    cbn [size ravel_F] in Hred. specialize (Hred ltac:(lia)).
    destruct (reshape_F_auto (A1 v) nc) as [a|e]; [|discriminate].
    cbn [bind] in *. rewrite Hred. cbn [bind].
    rewrite length_cell_norms.
    replace (f =? n)%nat with false
      by (symmetry; apply Nat.eqb_neq; intros E; apply N3; rewrite E4, E;
          reflexivity).
    cbn [bind]. split; [reflexivity | first [reflexivity | apply length_cell_norms]].
  - destruct Hacc as (-> & Hr & Hfn).
    rewrite Hr.
    replace (f =? n)%nat with false by (symmetry; apply Nat.eqb_neq; exact Hfn).
    cbn [shape_eqb andb negb bind].
    rewrite Bool.andb_false_r. cbn [negb].
    pose proof (reduce_by_norm (A2 nc rows) f nc Hpos) as Hred.
    cbn [size] in Hred. specialize (Hred ltac:(rewrite Hr; reflexivity)).
    destruct (reshape_F_auto (A2 nc rows) nc) as [a|e]; [|discriminate].
    cbn [bind] in *. rewrite Hred. cbn [bind].
    rewrite length_cell_norms.
    replace (f =? n)%nat with false by (symmetry; apply Nat.eqb_neq; exact Hfn).
    cbn [bind].
    assert (Heq : cell_norms f nc (ravel_F (A2 nc rows))
                  = map (fun i => sqrt (Rsum nc (fun j => entry rows i j
                                                         * entry rows i j)))
                        (seq 0 f)).
    { unfold cell_norms. apply map_ext_in; intros i Hi. apply in_seq in Hi.
      unfold row_norm. f_equal. apply Rsum_ext; intros j Hj.
      rewrite <- Hr. rewrite comp_ravel_F by lia. reflexivity. }
    rewrite Heq. split; [reflexivity|].
    rewrite ?length_map, ?length_seq. reflexivity.
Qed.

Lemma smoothness_loop (values : list ndarray) (w : list R) :
  Forall (face_acceptable n f nc) values ->
  length w = f ->
  for_each (amplitude_smoothness_weights self) values (AccArray (A1 w))
  = Ok (AccArray (A1 (map (fun i => nth i w 0
                                    * combined_face_weight A n f nc values i)
                          (seq 0 f)))).
Proof.
  intros HF. revert w; induction HF as [|value values Hv HF IH]; intros w Hw.
  - cbn [for_each combined_face_weight fold_right]. do 3 f_equal.
    rewrite <- (list_as_map_nth f w Hw) at 1.
    apply map_ext; intros; lra.
  - cbn [for_each].
    destruct (smoothness_projected_value value Hv (AccArray (A1 w)))
      as [Hstep Hlen].
    rewrite Hstep. cbn [accum_imul].
    rewrite imul_same_length by congruence. cbn [bind].
    rewrite IH by (rewrite length_mul_vec; congruence).
    do 3 f_equal. apply map_ext_in; intros i Hi. apply in_seq in Hi.
    rewrite (mul_vec_nth f) by congruence.
    rewrite (nth_map_seq _ 0) by lia.
    unfold combined_face_weight. cbn [fold_right]. ring.
Qed.

Lemma smoothness_W_value (value : ndarray) (values : list ndarray) :
  term_W self = None ->
  dict_values (term_weights self) = value :: values ->
  Forall (face_acceptable n f nc) (value :: values) ->
  let w := map (fun i => sqrt (combined_face_weight A n f nc
                                 (value :: values) i))
               (seq 0 f) in
  AmplitudeSmoothnessFirstOrder_W self
  = Ok (diags w, set_term_W self (Some (diags w))).
Proof.
  intros Hcache Hvals HF w.
  unfold AmplitudeSmoothnessFirstOrder_W. rewrite Hcache, Hvals.
  inversion HF as [|? ? Hv HF']; subst.
  cbn [for_each].
  destruct (smoothness_projected_value value Hv (AccFloat 1))
    as [Hstep Hlen].
  rewrite Hstep. cbn [accum_imul scale_array bind].
  rewrite smoothness_loop by (rewrite ?length_map; assumption).
  cbn [bind diags_of_sqrt]. rewrite map_map.
  replace (map _ (seq 0 f)) with w; [reflexivity|].
  unfold w. apply map_ext_in; intros i Hi. apply in_seq in Hi.
  f_equal.
  rewrite (nth_indep _ 0 (1 * 0)) by (rewrite length_map; lia).
  rewrite (map_nth (fun t => 1 * t)).
  unfold combined_face_weight. cbn [fold_right]. ring.
Qed.

End SmoothnessWeights.

(** X9: with nothing cached, a positive n_comp and an averaging operator
    with one column per cell, the weighting matrix of the smoothness term
    over registered arrays of the shapes (nC,), (nF,), (n_comp * nC,),
    (n_comp * nF,) and (nF, n_comp) is the diagonal matrix of order nF of the
    square roots of the per-face products: cell arrays are averaged to
    faces, per-component arrays are first reduced by their Euclidean norm
    across components and then averaged if they were given on cells. *)
Theorem amplitude_smoothness_W_combines_weights
  (self : AmplitudeTerm) (nc : nat) (value : ndarray)
  (values : list ndarray) :
  let A := aveCC2F (term_mesh self) (orientation_ self) in
  let n := nC (term_mesh self) in
  let f := nrows A in
  let w := map (fun i => sqrt (combined_face_weight A n f nc
                                 (value :: values) i))
               (seq 0 f) in
  term_W self = None ->
  n_comp (term_mesh self) (term_mapping self) = Ok nc ->
  (0 < nc)%nat ->
  ncols A = n ->
  dict_values (term_weights self) = value :: values ->
  Forall (face_acceptable n f nc) (value :: values) ->
  AmplitudeSmoothnessFirstOrder_W self
  = Ok (diags w, set_term_W self (Some (diags w)))
  /\ nrows (diags w) = f /\ ncols (diags w) = f.
Proof.
  intros A n f w Hcache Hnc Hpos Hcols Hvals HF. split.
  - exact (smoothness_W_value self nc Hnc Hpos Hcols value values
             Hcache Hvals HF).
  - cbn [nrows ncols diags]. unfold w.
    rewrite length_map, length_seq. split; reflexivity.
Qed.

Lemma amplitude_smoothness_W_combines_weights_witness :
  let self := amplitude_instance (line_mesh 2 2) identity_map x_dir
                [("volume"%string, A1 [1; 1]);
                 ("faces"%string, A1 [1; 2; 3]);
                 ("components"%string, A1 [3; 0; 4; 0])] in
  exists M, AmplitudeSmoothnessFirstOrder_W self
            = Ok (M, set_term_W self (Some M))
            /\ nrows M = 3%nat.
Proof.
  intros self.
  assert (HF : Forall (face_acceptable 2 3 2)
                 [A1 [1; 1]; A1 [1; 2; 3]; A1 [3; 0; 4; 0]]).
  { constructor; [left; reflexivity|].
    constructor; [right; left; reflexivity|].
    constructor; [right; right; left; reflexivity|]. constructor. }
  destruct (amplitude_smoothness_W_combines_weights self 2
              (A1 [1; 1]) [A1 [1; 2; 3]; A1 [3; 0; 4; 0]]
              eq_refl eq_refl (Nat.lt_0_succ 1) eq_refl eq_refl HF)
    as (HW & Hn & _).
  eexists. split; [exact HW | exact Hn].
Defined.

(** ** Properties of the amplitude *)

Lemma row_norm_nonneg (n nc : nat) (x : list R) (i : nat) :
  0 <= row_norm n nc x i.
Proof. unfold row_norm. apply sqrt_pos. Qed.

Lemma row_norm_of_zero_components (n nc : nat) (x : list R) (i : nat) :
  (forall j, (j < nc)%nat -> comp n x j i = 0) -> row_norm n nc x i = 0.
Proof.
  intros H. unfold row_norm.
  rewrite (Rsum_ext nc _ (fun _ => 0)); [rewrite Rsum_zero; apply sqrt_0|].
  intros j Hj. rewrite (H j Hj). lra.
Qed.

(** X10: every entry of the amplitude is non-negative, and the amplitude of
    a cell is zero exactly when every component of the mapped,
    reference-shifted model vanishes in that cell. *)
Theorem amplitude_nonnegative_and_definite
  (mesh : RegularizationMesh) (mp : Mapping) (ref_model : pyvalue)
  (m d : list R) (nc : nat) :
  _delta_m ref_model m = Ok d ->
  n_comp mesh mp = Ok nc ->
  length (map_apply mp d) = (nC mesh * nc)%nat ->
  exists a,
    amplitude mesh mp ref_model m = Ok a
    /\ forall i, (i < nC mesh)%nat ->
         0 <= nth i a 0
         /\ (nth i a 0 = 0
             <-> forall j, (j < nc)%nat ->
                   comp (nC mesh) (map_apply mp d) j i = 0).
Proof.
  intros Hd Hnc Hlen.
  rewrite (amplitude_value mesh mp ref_model m d nc Hd Hnc Hlen).
  eexists. split; [reflexivity|].
  intros i Hi. rewrite (nth_map_seq _ 0 _ i Hi).
  split; [apply row_norm_nonneg|]. split.
  - apply row_norm_zero.
  - apply row_norm_of_zero_components.
Qed.

Lemma amplitude_nonnegative_and_definite_witness :
  exists a,
    amplitude (line_mesh 2 2) identity_map PyNone [0; 3; 0; 4] = Ok a
    /\ 0 <= nth 1 a 0.
Proof.
  destruct (amplitude_nonnegative_and_definite
              (line_mesh 2 2) identity_map PyNone
              [0; 3; 0; 4] [0; 3; 0; 4] 2 eq_refl eq_refl eq_refl)
    as (a & Ha & Hcell).
  exists a. split; [exact Ha|].
  exact (proj1 (Hcell 1%nat (Nat.lt_succ_diag_r 1))).
Defined.

Lemma nth_map_scale (c : R) (x : list R) (j : nat) :
  nth j (map (Rmult c) x) 0 = c * nth j x 0.
Proof.
  revert j; induction x as [|x0 x IH]; intros [|j]; cbn [map nth];
    try lra; apply IH.
Qed.

Lemma row_norm_scale (n nc : nat) (c : R) (x : list R) (i : nat) :
  row_norm n nc (map (Rmult c) x) i = Rabs c * row_norm n nc x i.
Proof.
  unfold row_norm.
  rewrite (Rsum_ext nc _ (fun j => (c * c) * (comp n x j i * comp n x j i))).
  - rewrite Rsum_scal.
    rewrite sqrt_mult; [|nra|apply Rsum_nonneg; intros; nra].
    f_equal. change (c * c) with (Rsqr c). apply sqrt_Rsqr_abs.
  - intros j _. unfold comp. rewrite nth_map_scale. ring.
Qed.

(** X11: the amplitude is absolutely homogeneous: with no reference model
    and a mapping that commutes with scaling, multiplying the model by a
    number c multiplies the amplitude of every cell by |c|; in particular the
    amplitude does not change when the model changes sign. *)
Theorem amplitude_homogeneous
  (mesh : RegularizationMesh) (mp : Mapping) (c : R) (m a : list R) :
  map_apply mp (map (Rmult c) m) = map (Rmult c) (map_apply mp m) ->
  amplitude mesh mp PyNone m = Ok a ->
  amplitude mesh mp PyNone (map (Rmult c) m) = Ok (map (Rmult (Rabs c)) a).
Proof.
  intros Hhom Ha. unfold amplitude in *. cbn [_delta_m bind] in *.
  destruct (n_comp mesh mp) as [nc|e]; [|discriminate]. cbn [bind] in *.
  rewrite Hhom.
  unfold reshape_F in *. cbn [size ravel_F] in *.
  rewrite length_map.
  destruct (Nat.eqb_spec (length (map_apply mp m)) (nC mesh * nc))
    as [E|N]; [|discriminate].
  pose proof (norm_of_reshape (nC mesh) nc (A1 (map_apply mp m)) E) as H1.
  assert (E' : size (A1 (map (Rmult c) (map_apply mp m)))
               = (nC mesh * nc)%nat) by (cbn [size]; rewrite length_map; exact E).
  pose proof (norm_of_reshape (nC mesh) nc _ E') as H2.
  unfold reshape_F in H1, H2. cbn [size ravel_F] in H1, H2.
  rewrite length_map in H2. rewrite E, Nat.eqb_refl in H1, H2.
  rewrite H1 in Ha. rewrite H2. inversion Ha; subst a.
  f_equal. rewrite map_map. apply map_ext; intros i.
  apply row_norm_scale.
Qed.

Lemma amplitude_homogeneous_witness :
  amplitude (line_mesh 2 2) identity_map PyNone
            (map (Rmult (-1)) [0; 3; 0; 4])
  = Ok (map (Rmult (Rabs (-1))) [0; 5]).
Proof.
  exact (amplitude_homogeneous (line_mesh 2 2) identity_map (-1)
           [0; 3; 0; 4] [0; 5] eq_refl amplitude_with_a_zero_cell).
Defined.

Lemma nth_shift (r m : list R) (k : nat) :
  length r = length m ->
  nth k (map (fun p => - fst p + snd p) (combine r m)) 0
  = - nth k r 0 + nth k m 0.
Proof.
  revert m k; induction r as [|r0 r IH]; intros [|m0 m] k H;
    try discriminate.
  - destruct k; cbn; lra.
  - destruct k as [|k]; cbn [combine map nth fst snd]; [reflexivity|].
    apply IH. simpl in H; lia.
Qed.

(** X12: with the identity mapping and a reference model of the length of
    the model, the amplitude is the zero vector exactly when the model is
    the reference model. *)
Theorem amplitude_vanishes_only_at_reference
  (mesh : RegularizationMesh) (r m : list R) (nc : nat) :
  n_comp mesh identity_map = Ok nc ->
  length r = (nC mesh * nc)%nat ->
  length m = (nC mesh * nc)%nat ->
  amplitude mesh identity_map (PyArray (A1 r)) m = Ok (repeat 0 (nC mesh))
  <-> m = r.
Proof.
  intros Hnc Hr Hm.
  set (d := map (fun p => - fst p + snd p) (combine r m)).
  assert (Hd : _delta_m (PyArray (A1 r)) m = Ok d).
  { cbn [_delta_m]. unfold broadcast2. rewrite Hr, Hm, Nat.eqb_refl.
    reflexivity. }
  assert (Hlen : length (map_apply identity_map d) = (nC mesh * nc)%nat).
  { cbn [map_apply identity_map]. unfold d.
    rewrite length_map, length_combine, Hr, Hm. apply Nat.min_id. }
  rewrite (amplitude_value mesh identity_map _ m d nc Hd Hnc Hlen).
  cbn [map_apply identity_map].
  assert (Hnth : forall k, nth k d 0 = - nth k r 0 + nth k m 0)
    by (intros k; apply nth_shift; congruence).
  split.
  - intros Hz. inversion Hz as [Hz']. clear Hz.
    apply (nth_ext _ _ 0 0); [congruence|].
    intros k Hk. rewrite Hm in Hk.
    assert (Hn : (0 < nC mesh)%nat) by (destruct (nC mesh); lia).
    assert (Hi : (k mod nC mesh < nC mesh)%nat)
      by (apply Nat.mod_upper_bound; lia).
    assert (Hj : (k / nC mesh < nc)%nat)
      by (apply Nat.Div0.div_lt_upper_bound; lia).
    assert (Hrow : row_norm (nC mesh) nc d (k mod nC mesh) = 0).
    { rewrite <- (nth_map_seq (row_norm (nC mesh) nc d) 0 (nC mesh)) by exact Hi.
      rewrite Hz'. apply nth_repeat_zero. }
    pose proof (row_norm_zero _ _ _ _ Hrow (k / nC mesh) Hj) as Hc.
    unfold comp in Hc.
    replace (k mod nC mesh + k / nC mesh * nC mesh)%nat with k in Hc
      by (rewrite (Nat.div_mod_eq k (nC mesh)) at 1; lia).
    rewrite Hnth in Hc. lra.
  - intros ->. f_equal. rewrite <- map_const_seq.
    apply map_ext; intros i.
    apply row_norm_of_zero_components. intros j _.
    unfold comp. rewrite Hnth. lra.
Qed.

Lemma amplitude_vanishes_only_at_reference_witness :
  amplitude (line_mesh 1 2) identity_map (PyArray (A1 [3; 4])) [3; 4]
  = Ok (repeat 0 1).
Proof.
  exact (proj2 (amplitude_vanishes_only_at_reference
                  (line_mesh 1 2) [3; 4] [3; 4] 2 eq_refl eq_refl eq_refl)
               eq_refl).
Defined.

(** X13: when the mapping declares its output length and the mesh has no
    cell, n_comp and the amplitude raise ZeroDivisionError; when n_comp is
    defined, the amplitude raises ValueError exactly for the models whose
    mapped length is not nC * n_comp, and returns nC values otherwise; so,
    for a mapping whose output has its declared length, the amplitude is
    defined exactly when that length is a multiple of the number of cells
    (n_comp being the quotient rounded down). *)
Theorem amplitude_shape_errors
  (mesh : RegularizationMesh) (mp : Mapping) (ref_model : pyvalue)
  (m d : list R) :
  _delta_m ref_model m = Ok d ->
  (forall s, map_shape0 mp = Some s -> nC mesh = 0%nat ->
     n_comp mesh mp = Raise ZeroDivisionError
     /\ amplitude mesh mp ref_model m = Raise ZeroDivisionError)
  /\ (forall nc, n_comp mesh mp = Ok nc ->
        (amplitude mesh mp ref_model m = Raise ValueError
         <-> length (map_apply mp d) <> (nC mesh * nc)%nat)
        /\ (length (map_apply mp d) = (nC mesh * nc)%nat
            <-> exists a, amplitude mesh mp ref_model m = Ok a
                          /\ length a = nC mesh))
  /\ (forall s, map_shape0 mp = Some s -> (0 < nC mesh)%nat ->
        length (map_apply mp d) = s ->
        n_comp mesh mp = Ok (s / nC mesh)%nat
        /\ ((exists a, amplitude mesh mp ref_model m = Ok a)
            <-> (s mod nC mesh = 0)%nat)).
Proof.
  intros Hd.
  assert (Hcases : forall nc, n_comp mesh mp = Ok nc ->
            (length (map_apply mp d) = (nC mesh * nc)%nat ->
             exists a, amplitude mesh mp ref_model m = Ok a
                       /\ length a = nC mesh)
            /\ (length (map_apply mp d) <> (nC mesh * nc)%nat ->
                amplitude mesh mp ref_model m = Raise ValueError)).
  { intros nc Hnc. split.
    - intros Hlen.
      rewrite (amplitude_value mesh mp ref_model m d nc Hd Hnc Hlen).
      eexists. split; [reflexivity|].
      rewrite length_map, length_seq. reflexivity.
    - intros Hlen. unfold amplitude. rewrite Hd, Hnc. cbn [bind].
      unfold reshape_F. cbn [size].
      replace (length (map_apply mp d) =? nC mesh * nc)%nat with false
        by (symmetry; apply Nat.eqb_neq; exact Hlen).
      reflexivity. }
  split; [|split].
  - intros s Hs Hn.
    assert (Hz : n_comp mesh mp = Raise ZeroDivisionError)
      by (unfold n_comp; rewrite Hs, Hn; reflexivity).
    split; [exact Hz|].
    unfold amplitude. rewrite Hd, Hz. reflexivity.
  - intros nc Hnc. destruct (Hcases nc Hnc) as [Hok Hbad].
    split; split.
    + intros Hraise Hlen. destruct (Hok Hlen) as (a & Ha & _). congruence.
    + exact Hbad.
    + exact Hok.
    + intros (a & Ha & _).
      destruct (Nat.eq_dec (length (map_apply mp d)) (nC mesh * nc))
        as [E|N]; [exact E|].
      rewrite (Hbad N) in Ha. discriminate.
  - intros s Hs Hn Hlen.
    assert (Hnc : n_comp mesh mp = Ok (s / nC mesh)%nat).
    { unfold n_comp. rewrite Hs.
      replace (nC mesh =? 0)%nat with false
        by (symmetry; apply Nat.eqb_neq; lia).
      reflexivity. }
    split; [exact Hnc|].
    destruct (Hcases _ Hnc) as [Hok Hbad].
    pose proof (Nat.div_mod_eq s (nC mesh)) as Hdm.
    split.
    + intros (a & Ha).
      destruct (Nat.eq_dec (length (map_apply mp d))
                           (nC mesh * (s / nC mesh))) as [E|N].
      * lia.
      * rewrite (Hbad N) in Ha. discriminate.
    + intros Hmod. destruct (Hok ltac:(lia)) as (a & Ha & _).
      exists a. exact Ha.
Qed.

Lemma amplitude_shape_errors_witness :
  amplitude (line_mesh 2 2) identity_map PyNone [1; 2; 3] = Raise ValueError.
Proof.
  destruct (amplitude_shape_errors (line_mesh 2 2) identity_map PyNone
              [1; 2; 3] [1; 2; 3] eq_refl) as (_ & H2 & _).
  destruct (H2 2%nat eq_refl) as [[_ Hbad] _].
  apply Hbad. discriminate.
Defined.

(** ** The Gauss-Newton matrix of the amplitude terms *)

Lemma Rsum_scal_r (n : nat) (c : R) (f : nat -> R) :
  Rsum n (fun j => f j * c) = Rsum n f * c.
Proof. induction n as [|n IH]; simpl; [|rewrite IH]; lra. Qed.

Lemma Rsum_blocks (k n : nat) (f : nat -> R) :
  Rsum (n * k) f = Rsum n (fun j => Rsum k (fun i => f (i + j * k)%nat)).
Proof.
  induction n as [|n IH]; [reflexivity|].
  replace (S n * k)%nat with (n * k + k)%nat by lia.
  rewrite Rsum_app, IH. cbn [Rsum]. f_equal.
  apply Rsum_ext; intros i _. f_equal. lia.
Qed.

Lemma gram_symmetric (Wm : spmatrix) (i t : nat) :
  coef (gram Wm) i t = coef (gram Wm) t i.
Proof.
  unfold gram. cbn [coef matmul_raw transpose ncols].
  apply Rsum_ext; intros s _. ring.
Qed.

Lemma diag_cat_symmetric (A B : spmatrix) :
  nrows A = ncols A ->
  (forall i j, coef A i j = coef A j i) ->
  (forall i j, coef B i j = coef B j i) ->
  forall i j, coef (diag_cat A B) i j = coef (diag_cat A B) j i.
Proof.
  intros Hsq HA HB i j. cbn [coef diag_cat]. rewrite Hsq.
  destruct (i <? ncols A)%nat, (j <? ncols A)%nat; auto.
Qed.

Lemma block_diag_raw_symmetric (M : spmatrix) (n : nat) :
  nrows M = ncols M ->
  (forall i j, coef M i j = coef M j i) ->
  forall i j,
    coef (block_diag_raw M (repeat M n)) i j
    = coef (block_diag_raw M (repeat M n)) j i.
Proof.
  intros Hsq HM. induction n as [|n IH]; cbn [repeat block_diag_raw].
  - exact HM.
  - apply diag_cat_symmetric; assumption.
Qed.

(** The quadratic form of [W.T * W] is a sum of squares. *)
Lemma gram_quadratic_form (Wm : spmatrix) (x : nat -> R) :
  Rsum (ncols Wm)
       (fun i => Rsum (ncols Wm) (fun t => coef (gram Wm) i t * x t) * x i)
  = Rsum (nrows Wm)
         (fun s => Rsum (ncols Wm) (fun i => coef Wm s i * x i)
                   * Rsum (ncols Wm) (fun i => coef Wm s i * x i)).
Proof.
  unfold gram. cbn [coef matmul_raw transpose ncols].
  set (k := ncols Wm). set (r := nrows Wm).
  set (z := fun s => Rsum k (fun i => coef Wm s i * x i)).
  transitivity (Rsum k (fun i => Rsum r (fun s => coef Wm s i * z s * x i))).
  - apply Rsum_ext; intros i _.
    rewrite (Rsum_scal_r r (x i) (fun s => coef Wm s i * z s)). f_equal.
    transitivity
      (Rsum k (fun t => Rsum r (fun s => coef Wm s i * (coef Wm s t * x t)))).
    + apply Rsum_ext; intros t _. rewrite <- Rsum_scal_r.
      apply Rsum_ext; intros s _. ring.
    + rewrite Rsum_swap. apply Rsum_ext; intros s _.
      unfold z. rewrite Rsum_scal. reflexivity.
  - rewrite Rsum_swap. apply Rsum_ext; intros s _.
    transitivity (Rsum k (fun i => coef Wm s i * x i * z s)).
    + apply Rsum_ext; intros i _. ring.
    + rewrite Rsum_scal_r. reflexivity.
Qed.

Lemma gram_quadratic_form_nonneg (Wm : spmatrix) (x : nat -> R) :
  0 <= Rsum (ncols Wm)
            (fun i => Rsum (ncols Wm) (fun t => coef (gram Wm) i t * x t)
                      * x i).
Proof.
  rewrite gram_quadratic_form. apply Rsum_nonneg; intros; nra.
Qed.

(** Moving a matrix to the other side of a dot product transposes it. *)
Lemma dot_transpose (A : spmatrix) (v y : list R) :
  length v = ncols A ->
  dot v (matvec_raw (transpose A) y)
  = Rsum (nrows A) (fun a => nth a y 0 * nth a (matvec_raw A v) 0).
Proof.
  intros Hv. unfold dot. rewrite Hv.
  transitivity
    (Rsum (ncols A)
       (fun i => Rsum (nrows A)
                   (fun a => nth a y 0 * (coef A a i * nth i v 0)))).
  - apply Rsum_ext; intros i Hi.
    rewrite nth_matvec_raw by exact Hi.
    cbn [ncols coef transpose]. rewrite Rmult_comm, <- Rsum_scal_r.
    apply Rsum_ext; intros a _. ring.
  - rewrite Rsum_swap. apply Rsum_ext; intros a Ha.
    rewrite nth_matvec_raw by exact Ha. rewrite Rsum_scal. reflexivity.
Qed.

Lemma block_gram_quadratic_nonneg (Wm : spmatrix) (n : nat) (u : list R) :
  length u = (S n * ncols Wm)%nat ->
  0 <= Rsum (S n * ncols Wm)
            (fun a => nth a (matvec_raw (block_gram Wm n) u) 0 * nth a u 0).
Proof.
  intros Hu. rewrite Rsum_blocks. apply Rsum_nonneg; intros j Hj.
  rewrite (Rsum_ext _ _
             (fun i => Rsum (ncols Wm)
                         (fun t => coef (gram Wm) i t
                                   * nth (t + j * ncols Wm) u 0)
                       * nth (i + j * ncols Wm) u 0)).
  - apply (gram_quadratic_form_nonneg Wm
             (fun t => nth (t + j * ncols Wm) u 0)).
  - intros i Hi. f_equal. unfold block_gram.
    apply (nth_matvec_raw_block_diag (gram Wm) n u i j);
      [reflexivity | exact Hu | exact Hi | exact Hj].
Qed.

Lemma congruence_symmetric (J B : spmatrix) :
  ncols B = nrows J ->
  (forall a b, coef B a b = coef B b a) ->
  forall i j,
    coef (matmul_raw (transpose J) (matmul_raw B J)) i j
    = coef (matmul_raw (transpose J) (matmul_raw B J)) j i.
Proof.
  intros Hc HB i j. cbn [coef matmul_raw transpose ncols]. rewrite Hc.
  transitivity
    (Rsum (nrows J)
       (fun a => Rsum (nrows J)
                   (fun b => coef J a i * coef B a b * coef J b j))).
  - apply Rsum_ext; intros a _. rewrite <- Rsum_scal.
    apply Rsum_ext; intros b _. ring.
  - rewrite Rsum_swap. apply Rsum_ext; intros a _. rewrite <- Rsum_scal.
    apply Rsum_ext; intros b _. rewrite (HB b a). ring.
Qed.

(** X14: the matrix that deriv2 returns without a vector is square, of the
    order of the model, and symmetric, whatever the weighting matrix and the
    kernel derivative of the term are. *)
Theorem deriv2_matrix_symmetric
  (mesh : RegularizationMesh) (mp : Mapping)
  (W : result spmatrix) (f_m_deriv : list R -> result spmatrix)
  (m : list R) (J Wm : spmatrix) (nc : nat) :
  f_m_deriv m = Ok J ->
  W = Ok Wm ->
  n_comp mesh mp = Ok nc ->
  (0 < nc)%nat ->
  nrows J = (nc * ncols Wm)%nat ->
  exists H,
    deriv2 mesh mp W f_m_deriv m None = Ok (RetMatrix H)
    /\ nrows H = ncols J
    /\ ncols H = ncols J
    /\ forall i j, coef H i j = coef H j i.
Proof.
  intros HJ HW Hnc Hpos Hrows.
  destruct nc as [|n]; [lia|].
  eexists. split; [|split; [|split]].
  - apply (deriv2_full_matrix mesh mp W f_m_deriv m J Wm n HJ HW Hnc Hrows).
  - reflexivity.
  - reflexivity.
  - destruct (shape_block_diag_raw (gram Wm) n) as [_ Hc].
    apply congruence_symmetric.
    + unfold block_gram. rewrite Hc, Hrows. reflexivity.
    + unfold block_gram. apply block_diag_raw_symmetric.
      * reflexivity.
      * apply gram_symmetric.
Qed.

Lemma deriv2_matrix_symmetric_witness :
  let self := amplitude_instance (line_mesh 2 2) identity_map x_dir
                [("volume"%string, A1 [1; 1])] in
  exists H,
    AmplitudeSmoothnessFirstOrder_deriv2 self [1; 2; 3; 4] None
    = Ok (RetMatrix H)
    /\ nrows H = 4%nat
    /\ ncols H = 4%nat
    /\ forall i j, coef H i j = coef H j i.
Proof.
  intros self.
  exact (deriv2_matrix_symmetric
           (line_mesh 2 2) identity_map
           (W_value (AmplitudeSmoothnessFirstOrder_W self))
           (AmplitudeSmoothnessFirstOrder_f_m_deriv self)
           [1; 2; 3; 4] _ _ 2
           eq_refl eq_refl eq_refl (Nat.lt_0_succ 1) eq_refl).
Defined.

(** X15: the matrix of deriv2 is positive semidefinite: for every vector of
    the length of the model, the product that deriv2 returns for the vector
    has a non-negative dot product with the vector, and so has the gradient
    that deriv returns with the shifted model. *)
Theorem deriv2_positive_semidefinite
  (mesh : RegularizationMesh) (mp : Mapping) (ref_model : pyvalue)
  (W : result spmatrix) (f_m_deriv : list R -> result spmatrix)
  (m : list R) (J Wm : spmatrix) (nc : nat) :
  f_m_deriv m = Ok J ->
  W = Ok Wm ->
  n_comp mesh mp = Ok nc ->
  (0 < nc)%nat ->
  nrows J = (nc * ncols Wm)%nat ->
  (forall v, length v = ncols J ->
     exists g,
       deriv2 mesh mp W f_m_deriv m (Some v) = Ok (RetArray g)
       /\ 0 <= dot v g)
  /\ (forall d, _delta_m ref_model m = Ok d -> length d = ncols J ->
        exists g,
          deriv mesh mp ref_model W f_m_deriv m = Ok g /\ 0 <= dot d g).
Proof.
  intros HJ HW Hnc Hpos Hrows.
  destruct nc as [|n]; [lia|].
  assert (Hq : forall v, length v = ncols J ->
                 0 <= dot v (matvec_raw (transpose J)
                               (matvec_raw (block_gram Wm n)
                                  (matvec_raw J v)))).
  { intros v Hv. rewrite dot_transpose by exact Hv. rewrite Hrows.
    apply block_gram_quadratic_nonneg.
    rewrite length_matvec_raw. exact Hrows. }
  split.
  - intros v Hv. eexists. split; [|apply (Hq v Hv)].
    unfold deriv2. rewrite HJ, HW. cbn [bind].
    pose proof (weighted_product mesh mp J Wm n Hnc Hrows v Hv) as Hp.
    destruct (matvec J v) as [u|e]; [|discriminate]. cbn [bind] in *.
    destruct (weighted_columns mesh mp Wm u) as [f|e]; [|discriminate].
    cbn [bind] in *. rewrite Hp. reflexivity.
  - intros d Hd Hlen. eexists. split; [|apply (Hq d Hlen)].
    unfold deriv. rewrite Hd, HJ, HW. cbn [bind].
    apply (weighted_product mesh mp J Wm n Hnc Hrows d Hlen).
Qed.

Lemma deriv2_positive_semidefinite_witness :
  let self := amplitude_instance (line_mesh 2 2) identity_map x_dir
                [("volume"%string, A1 [1; 1])] in
  exists g,
    AmplitudeSmoothnessFirstOrder_deriv2 self [1; 2; 3; 4]
      (Some [1; 0; 0; 1]) = Ok (RetArray g)
    /\ 0 <= dot [1; 0; 0; 1] g.
Proof.
  intros self.
  exact (proj1 (deriv2_positive_semidefinite
                  (line_mesh 2 2) identity_map PyNone
                  (W_value (AmplitudeSmoothnessFirstOrder_W self))
                  (AmplitudeSmoothnessFirstOrder_f_m_deriv self)
                  [1; 2; 3; 4] _ _ 2
                  eq_refl eq_refl eq_refl (Nat.lt_0_succ 1) eq_refl)
               [1; 0; 0; 1] eq_refl).
Defined.

(** ** The kernel of the smoothness term *)

(** Entry [i] of block [j] of the product with a block-diagonal matrix of
    rectangular blocks. *)
Lemma nth_matvec_raw_block_diag_rect (M : spmatrix) (n : nat) (u : list R)
  (i j : nat) :
  length u = (S n * ncols M)%nat ->
  (i < nrows M)%nat -> (j < S n)%nat ->
  nth (i + j * nrows M) (matvec_raw (block_diag_raw M (repeat M n)) u) 0
  = Rsum (ncols M) (fun t => coef M i t * nth (t + j * ncols M) u 0).
Proof.
  intros Hu Hi Hj.
  rewrite matvec_raw_block_diag_chunks by exact Hu.
  rewrite <- flat_map_concat_map.
  rewrite <- (flat_map_seq_nth (matvec_raw M) []).
  rewrite length_chunks.
  rewrite (nth_flat_map_blocks _ (nrows M)); try assumption.
  - cbn [Nat.add]. rewrite nth_matvec_raw by lia.
    apply Rsum_ext; intros t Ht.
    rewrite nth_chunks by assumption. reflexivity.
  - intros k. apply length_matvec_raw.
Qed.

(** X16: the kernel of the smoothness term is the cell gradient applied to
    the amplitude: one value per row of the gradient when the gradient has
    one column per cell, ValueError otherwise.  Where the amplitude is the
    same in every cell, the kernel is zero at every row of the gradient whose
    coefficients sum to zero. *)
Theorem smoothness_kernel_is_gradient_of_amplitude
  (self : AmplitudeTerm) (m d : list R) (nc : nat) :
  _delta_m (term_reference_model self) m = Ok d ->
  n_comp (term_mesh self) (term_mapping self) = Ok nc ->
  length (map_apply (term_mapping self) d) = (nC (term_mesh self) * nc)%nat ->
  let G := cell_gradient self in
  let n := nC (term_mesh self) in
  let a := cell_norms n nc (map_apply (term_mapping self) d) in
  (ncols G = n ->
     AmplitudeSmoothnessFirstOrder_f_m self m = Ok (matvec_raw G a)
     /\ length (matvec_raw G a) = nrows G
     /\ forall c, (forall j, (j < n)%nat -> nth j a 0 = c) ->
          forall i, (i < nrows G)%nat ->
            Rsum n (coef G i) = 0 ->
            nth i (matvec_raw G a) 0 = 0)
  /\ (ncols G <> n ->
        AmplitudeSmoothnessFirstOrder_f_m self m = Raise ValueError).
Proof.
  intros Hd Hnc Hlen G n a.
  assert (Ha : amplitude (term_mesh self) (term_mapping self)
                 (term_reference_model self) m = Ok a)
    by (apply (amplitude_value _ _ _ m d nc Hd Hnc Hlen)).
  assert (Hla : length a = n) by apply length_cell_norms.
  split.
  - intros Hc. split; [|split].
    + unfold AmplitudeSmoothnessFirstOrder_f_m. rewrite Ha. cbn [bind].
      unfold matvec. fold G. rewrite Hla, Hc, Nat.eqb_refl. reflexivity.
    + apply length_matvec_raw.
    + intros c Hu i Hi Hsum.
      rewrite nth_matvec_raw by exact Hi. rewrite Hc.
      rewrite (Rsum_ext _ _ (fun j => coef G i j * c)).
      * rewrite Rsum_scal_r, Hsum. lra.
      * intros j Hj. rewrite (Hu j Hj). reflexivity.
  - intros Hc.
    unfold AmplitudeSmoothnessFirstOrder_f_m. rewrite Ha. cbn [bind].
    unfold matvec. fold G. rewrite Hla.
    replace (n =? ncols G)%nat with false
      by (symmetry; apply Nat.eqb_neq; congruence).
    reflexivity.
Qed.

Lemma smoothness_kernel_is_gradient_of_amplitude_witness :
  let self := amplitude_instance (line_mesh 2 2) identity_map x_dir [] in
  exists f,
    AmplitudeSmoothnessFirstOrder_f_m self [3; 3; 4; 4] = Ok f
    /\ length f = 3%nat
    /\ nth 1 f 0 = 0.
Proof.
  intros self.
  destruct (smoothness_kernel_is_gradient_of_amplitude self
              [3; 3; 4; 4] [3; 3; 4; 4] 2 eq_refl eq_refl eq_refl)
    as [Hgood _].
  destruct (Hgood eq_refl) as (Hf & Hl & Hz).
  eexists. split; [exact Hf|]. split; [exact Hl|].
  apply (Hz (sqrt (3 * 3 + 4 * 4))).
  - intros j Hj.
    assert (Hj' : j = 0%nat \/ j = 1%nat) by (cbn in Hj; lia).
    destruct Hj' as [-> | ->];
      cbn; unfold row_norm, comp; cbn; f_equal; ring.
  - cbn. lia.
  - cbn. lra.
Defined.

(** X17: the kernel derivative of the smoothness term, for a positive number
    of components, is defined exactly when the derivative of the mapping has
    n_comp times as many rows as the gradient has columns (ValueError
    otherwise); it has n_comp times as many rows as the gradient and the
    columns of the mapping derivative, and applied to a vector it is the
    gradient applied to each component block of the mapping derivative
    applied to the vector. *)
Theorem smoothness_kernel_derivative_blocks
  (self : AmplitudeTerm) (m d : list R) (nc : nat) :
  _delta_m (term_reference_model self) m = Ok d ->
  n_comp (term_mesh self) (term_mapping self) = Ok nc ->
  (0 < nc)%nat ->
  let G := cell_gradient self in
  let D := map_deriv (term_mapping self) d in
  (nrows D = (nc * ncols G)%nat ->
     exists M,
       AmplitudeSmoothnessFirstOrder_f_m_deriv self m = Ok M
       /\ nrows M = (nc * nrows G)%nat
       /\ ncols M = ncols D
       /\ forall v i j, (i < nrows G)%nat -> (j < nc)%nat ->
            nth (i + j * nrows G) (matvec_raw M v) 0
            = Rsum (ncols G)
                (fun t => coef G i t
                          * nth (t + j * ncols G) (matvec_raw D v) 0))
  /\ (nrows D <> (nc * ncols G)%nat ->
        AmplitudeSmoothnessFirstOrder_f_m_deriv self m = Raise ValueError).
Proof.
  intros Hd Hnc Hpos G D.
  destruct nc as [|k]; [lia|].
  destruct (shape_block_diag_raw G k) as [Hr Hc].
  split.
  - intros Hrows. eexists. split; [|split; [|split]].
    + unfold AmplitudeSmoothnessFirstOrder_f_m_deriv.
      rewrite Hnc, Hd. cbn [bind repeat block_diag]. fold G.
      unfold matmul. fold D. rewrite Hc, Hrows, Nat.eqb_refl. reflexivity.
    + cbn [nrows matmul_raw]. exact Hr.
    + reflexivity.
    + intros v i j Hi Hj.
      rewrite matvec_raw_matmul by (rewrite Hc; symmetry; exact Hrows).
      apply nth_matvec_raw_block_diag_rect; try assumption.
      rewrite length_matvec_raw. exact Hrows.
  - intros Hrows.
    unfold AmplitudeSmoothnessFirstOrder_f_m_deriv.
    rewrite Hnc, Hd. cbn [bind repeat block_diag]. fold G.
    unfold matmul. fold D. rewrite Hc.
    replace (S k * ncols G =? nrows D)%nat with false
      by (symmetry; apply Nat.eqb_neq; congruence).
    reflexivity.
Qed.

Lemma smoothness_kernel_derivative_blocks_witness :
  let self := amplitude_instance (line_mesh 2 2) identity_map x_dir [] in
  exists M,
    AmplitudeSmoothnessFirstOrder_f_m_deriv self [3; 3; 4; 4] = Ok M
    /\ nrows M = 6%nat
    /\ ncols M = 4%nat.
Proof.
  intros self.
  destruct (smoothness_kernel_derivative_blocks self
              [3; 3; 4; 4] [3; 3; 4; 4] 2 eq_refl eq_refl (Nat.lt_0_succ 1))
    as [Hgood _].
  destruct (Hgood eq_refl) as (M & HM & Hr & Hc & _).
  exists M. split; [exact HM|]. split; [exact Hr | exact Hc].
Defined.

(** ** The gradient of the smallness term *)

Lemma matvec_raw_identity (L : nat) (v : list R) :
  length v = L -> matvec_raw (diags (repeat 1 L)) v = v.
Proof.
  intros <-.
  unfold matvec_raw. cbn [nrows ncols coef diags]. rewrite repeat_length.
  transitivity (map (fun i => nth i v 0) (seq 0 (length v)));
    [|apply list_as_map_nth; reflexivity].
  apply map_ext_in; intros i Hi. apply in_seq in Hi.
  rewrite Rsum_delta.
  replace (i <? length v)%nat with true by (symmetry; apply Nat.ltb_lt; lia).
  rewrite nth_repeat_in by lia. lra.
Qed.

Lemma matvec_raw_identity_transposed (L : nat) (v : list R) :
  length v = L -> matvec_raw (transpose (diags (repeat 1 L))) v = v.
Proof.
  intros Hv.
  transitivity (matvec_raw (diags (repeat 1 L)) v);
    [|apply matvec_raw_identity; exact Hv].
  unfold matvec_raw. cbn [nrows ncols coef diags transpose].
  apply map_ext; intros i. apply Rsum_ext; intros j _.
  rewrite (Nat.eqb_sym j i).
  destruct (Nat.eqb_spec i j) as [->|_]; reflexivity.
Qed.

Lemma amplitude_smallness_W_value (self : AmplitudeTerm) (nc : nat) :
  let n := nC (term_mesh self) in
  term_W self = None ->
  n_comp (term_mesh self) (term_mapping self) = Ok nc ->
  W_value (AmplitudeSmallness_W self)
  = Ok (diags (map (fun i => sqrt (smallness_combined_weight n nc
                                     (dict_values (term_weights self)) i))
                   (seq 0 n))).
Proof.
  intros n Hcache Hnc. unfold AmplitudeSmallness_W. rewrite Hcache.
  rewrite (amplitude_smallness_weights_loop self nc _ _ Hnc
             (repeat_length 1 n)).
  cbn [bind sqrt_array W_value fst]. rewrite map_map.
  f_equal. f_equal. apply map_ext_in; intros i Hi. apply in_seq in Hi.
  rewrite nth_repeat_in by (unfold n; lia). f_equal. fold n. lra.
Qed.

(** X18: for the identity mapping and non-negative combined weights, the
    gradient that the smallness term returns is the reference-shifted model
    with every component of a cell multiplied by the combined weight of the
    cell: it is linear in the shifted model, the amplitude itself does not
    appear in it. *)
Theorem amplitude_smallness_gradient
  (self : AmplitudeTerm) (m d : list R) :
  let n := nC (term_mesh self) in
  let nc := dim (term_mesh self) in
  let cw := smallness_combined_weight n nc
              (dict_values (term_weights self)) in
  term_mapping self = identity_map ->
  term_W self = None ->
  _delta_m (term_reference_model self) m = Ok d ->
  (0 < nc)%nat ->
  length d = (nc * n)%nat ->
  (forall i, (i < n)%nat -> 0 <= cw i) ->
  exists g,
    AmplitudeSmallness_deriv self m = Ok g
    /\ length g = length d
    /\ forall i j, (i < n)%nat -> (j < nc)%nat ->
         nth (i + j * n) g 0 = cw i * nth (i + j * n) d 0.
Proof.
  intros n nc cw Hmp Hcache Hd Hpos Hlen Hw.
  assert (Hnc : n_comp (term_mesh self) (term_mapping self) = Ok nc)
    by (rewrite Hmp; reflexivity).
  pose proof (amplitude_smallness_W_value self nc Hcache Hnc) as HWv.
  cbv zeta in HWv. fold n in HWv. fold cw in HWv.
  set (w := map (fun i => sqrt (cw i)) (seq 0 n)) in *.
  assert (Hlw : length w = n)
    by (unfold w; rewrite length_map, length_seq; reflexivity).
  assert (HJ : AmplitudeSmallness_f_m_deriv self m
               = Ok (diags (repeat 1 (length d)))).
  { unfold AmplitudeSmallness_f_m_deriv. rewrite Hd, Hmp. reflexivity. }
  destruct nc as [|k] eqn:Ek; [lia|].
  assert (Hrows : nrows (diags (repeat 1 (length d)))
                  = (S k * ncols (diags w))%nat).
  { cbn [nrows ncols diags]. rewrite repeat_length, Hlw. exact Hlen. }
  assert (Hcols : length d = ncols (diags (repeat 1 (length d))))
    by (cbn [ncols diags]; rewrite repeat_length; reflexivity).
  exists (matvec_raw (block_gram (diags w) k) d).
  split; [|split].
  - unfold AmplitudeSmallness_deriv, deriv.
    rewrite Hd, HJ, HWv. cbn [bind].
    rewrite (weighted_product (term_mesh self) (term_mapping self)
               _ (diags w) k Hnc Hrows d Hcols).
    rewrite (matvec_raw_identity (length d) d eq_refl).
    rewrite matvec_raw_identity_transposed; [reflexivity|].
    rewrite length_matvec_raw.
    destruct (shape_block_diag_raw (gram (diags w)) k) as [Hr _].
    unfold block_gram. rewrite Hr.
    cbn [nrows gram matmul_raw transpose ncols diags].
    rewrite Hlw. symmetry. exact Hlen.
  - rewrite length_matvec_raw.
    destruct (shape_block_diag_raw (gram (diags w)) k) as [Hr _].
    unfold block_gram. rewrite Hr. cbn [nrows gram matmul_raw transpose ncols diags].
    rewrite Hlw. symmetry. exact Hlen.
  - intros i j Hi Hj.
    assert (Hu : length d = (S k * ncols (gram (diags w)))%nat)
      by (cbn [ncols gram matmul_raw diags]; rewrite Hlw; exact Hlen).
    assert (Hi' : (i < ncols (gram (diags w)))%nat)
      by (cbn [ncols gram matmul_raw diags]; rewrite Hlw; exact Hi).
    pose proof (nth_matvec_raw_block_diag (gram (diags w)) k d i j
                  eq_refl Hu Hi' Hj) as Hn.
    fold (block_gram (diags w) k) in Hn.
    cbn [ncols matmul_raw diags gram] in Hn. rewrite Hlw in Hn.
    rewrite Hn.
    rewrite (Rsum_ext _ _
               (fun t => (if (i =? t)%nat then nth i w 0 * nth i w 0 else 0)
                         * nth (t + j * n) d 0)).
    + rewrite Rsum_delta.
      replace (i <? n)%nat with true by (symmetry; apply Nat.ltb_lt; lia).
      f_equal. unfold w. rewrite (nth_map_seq _ 0 n i Hi).
      apply sqrt_sqrt. apply Hw. exact Hi.
    + intros t _. f_equal. unfold gram.
      apply coef_square_diags. rewrite Hlw. exact Hi.
Qed.

Lemma amplitude_smallness_gradient_witness :
  let self := amplitude_instance (line_mesh 2 2) identity_map x_dir
                [("volume"%string, A1 [4; 9])] in
  exists g,
    AmplitudeSmallness_deriv self [1; 2; 3; 4] = Ok g
    /\ length g = 4%nat
    /\ nth 3 g 0 = 9 * 4.
Proof.
  intros self.
  assert (Hw : forall i, (i < 2)%nat ->
                 0 <= smallness_combined_weight 2 2 [A1 [4; 9]] i).
  { intros i Hi.
    assert (Hi' : i = 0%nat \/ i = 1%nat) by lia.
    destruct Hi' as [-> | ->]; cbn; lra. }
  destruct (amplitude_smallness_gradient self [1; 2; 3; 4] [1; 2; 3; 4]
              eq_refl eq_refl eq_refl (Nat.lt_0_succ 1) eq_refl Hw)
    as (g & Hg & Hl & Hv).
  exists g. split; [exact Hg|]. split; [exact Hl|].
  pose proof (Hv 1%nat 1%nat (Nat.lt_succ_diag_r 1) (Nat.lt_succ_diag_r 1))
    as H3.
  cbn in H3. rewrite H3. lra.
Defined.

(** ** Apparent resistivity and phase *)

Lemma np_abs_sqr (z : complex) :
  np_abs z ^ 2 = real z * real z + imag z * imag z.
Proof. unfold np_abs. apply pow2_sqrt. nra. Qed.



(** X19: at a positive frequency the apparent resistivity is the squared
    modulus of the impedance over the angular frequency times the magnetic
    permeability of free space (4e-7 pi); it is never negative, vanishes only
    for the zero impedance, grows with the square of a factor applied to the
    impedance and falls inversely with a factor applied to the frequency. *)
Theorem apparent_resistivity_formula (freq : R) (z : complex) :
  0 < freq ->
  fst (appResPhs freq z)
  = (real z * real z + imag z * imag z) / (2 * PI * freq * (4e-7 * PI))
  /\ 0 <= fst (appResPhs freq z)
  /\ (fst (appResPhs freq z) = 0 <-> real z = 0 /\ imag z = 0)
  /\ (forall c, fst (appResPhs freq (cscale c z))
                = c * c * fst (appResPhs freq z))
  /\ (forall c, 0 < c ->
        fst (appResPhs (c * freq) z) = fst (appResPhs freq z) / c).
Proof.
  intros Hf. pose proof PI_RGT_0 as Hpi.
  assert (Hres : forall f w, f <> 0 ->
            fst (appResPhs f w)
            = (real w * real w + imag w * imag w)
              / (2 * PI * f * (4e-7 * PI))).
  { intros f w Hne. cbn [fst appResPhs]. rewrite np_abs_sqr.
    field. split; lra. }
  assert (Hk : 0 < / (2 * PI * freq * (4e-7 * PI))).
  { apply Rinv_0_lt_compat. apply Rmult_lt_0_compat; nra. }
  split; [apply Hres; lra|].
  split; [|split; [|split]].
  - rewrite Hres by lra. unfold Rdiv. nra.
  - rewrite Hres by lra. unfold Rdiv. split.
    + intros H0.
      assert (real z * real z + imag z * imag z = 0) by nra.
      split; nra.
    + intros [-> ->]. lra.
  - intros c. rewrite !Hres by lra. cbn [real imag cscale]. field.
    split; lra.
  - intros c Hc. rewrite !Hres by nra. field. repeat split; lra.
Qed.

Lemma apparent_resistivity_formula_witness :
  0 <= fst (appResPhs 10 {| real := 3; imag := 4 |}).
Proof.
  assert (H10 : 0 < 10) by lra.
  exact (proj1 (proj2 (apparent_resistivity_formula
                         10 {| real := 3; imag := 4 |} H10))).
Defined.


